(** * skgym.algorithms: the Monte Carlo update core

    A shallow embedding of [skgym/algorithms/base.py] and
    [skgym/algorithms/monte_carlo.py].

    - Python floats are an abstract number type [T] with the three operations
      the code uses (the literal [0], [+] and [*]); the structural results
      hold for every interpretation, the closed formula for the discounted
      return is proved for exact arithmetic ([Q]), and the scenario of the
      spec is also run in binary64.
    - Python objects are references ([obj]); the mutable state behind them
      (the parameters of the function approximator) is the [World].
    - A method is a computation in the monad [M]: it reads and writes the
      algorithm object [self], the [World] and the trace of calls, and it may
      raise.  What was mutated before an exception stays mutated. *)

From Stdlib Require Import ZArith QArith Qpower String Lia Lqa PrimFloat.
From stdpp Require Import base list.

Local Open Scope Z_scope.

(** ** Numbers *)

Class Numeric (T : Type) := {
  zero : T;
  add : T -> T -> T;
  mul : T -> T -> T
}.

#[export] Instance Q_numeric : Numeric Q :=
  {| zero := 0%Q; add := Qplus; mul := Qmult |}.

(** ** Exceptions and results *)

Inductive exn :=
| TypeError (msg : string)
| ValueError (msg : string)
| UnboundLocalError (name : string)
| IndexError (msg : string)
| EmptyCacheError
| LoopFuelExhausted.

Inductive result (A : Type) :=
| Ok (a : A)
| Raise (e : exn).
Arguments Ok {A} a.
Arguments Raise {A} e.

Definition rbind {A B} (r : result A) (k : A -> result B) : result B :=
  match r with
  | Ok a => k a
  | Raise e => Raise e
  end.

Definition bad_type_msg : string :=
  "value_function_or_policy must be either a value function or a value-based policy".

(** ** The numpy values the code handles *)

Section Arrays.
Context {T : Type} `{Numeric T}.

(** The return [G]: the Python scalar [0] before the first replay step, a
    1d-array afterwards. *)
Inductive ndval :=
| Scalar (g : T)
| Arr1 (gs : list T).

(** What [Y] returns: [G] itself (1d) or a [batch_size, num_actions] array. *)
Inductive label :=
| Y1d (G : ndval)
| Y2d (rows : list (list T)).

(** [c * G] for a Python float [c]. *)
Definition np_scale (c : T) (G : ndval) : ndval :=
  match G with
  | Scalar g => Scalar (mul c g)
  | Arr1 gs => Arr1 (map (mul c) gs)
  end.

(** [R + G] for a 1d-array [R], with numpy's broadcasting. *)
Definition np_add (R : list T) (G : ndval) : result ndval :=
  match G with
  | Scalar g => Ok (Arr1 (map (fun r => add r g) R))
  | Arr1 gs =>
      if (length R =? length gs)%nat then Ok (Arr1 (zip_with add R gs))
      else match R, gs with
           | [r], _ => Ok (Arr1 (map (add r) gs))
           | _, [g] => Ok (Arr1 (map (fun r => add r g) R))
           | _, _ => Raise (ValueError "operands could not be broadcast together")
           end
  end.

(** [np.arange(n)]. *)
Definition arange (n : nat) : list nat := seq 0 n.

(** An index into an axis of length [n]; negative indices count from the end. *)
Definition normalize_index (n : nat) (i : Z) : result nat :=
  if (0 <=? i) && (i <? Z.of_nat n) then Ok (Z.to_nat i)
  else if (- Z.of_nat n <=? i) && (i <? 0) then Ok (Z.to_nat (i + Z.of_nat n))
  else Raise (IndexError "index is out of bounds").

(** The values of an assignment, broadcast to the [n] indexed cells. *)
Definition broadcast_to (n : nat) (G : ndval) : result (list T) :=
  match G with
  | Scalar g => Ok (replicate n g)
  | Arr1 [g] => Ok (replicate n g)
  | Arr1 gs =>
      if (length gs =? n)%nat then Ok gs
      else Raise (ValueError "shape mismatch")
  end.

(** [Ym[i, a] = g]. *)
Definition set_item (Ym : list (list T)) (i : nat) (a : Z) (g : T)
  : result (list (list T)) :=
  match Ym !! i with
  | None => Raise (IndexError "index is out of bounds")
  | Some row =>
      rbind (normalize_index (length row) a) (fun j =>
      Ok (<[i := <[j := g]> row]> Ym))
  end.

(** [Ym[idx, A] = vals], cell by cell. *)
Fixpoint assign_cells (Ym : list (list T)) (idx : list nat) (A : list Z)
    (vals : list T) : result (list (list T)) :=
  match idx, A, vals with
  | i :: idx', a :: A', g :: vals' =>
      rbind (set_item Ym i a g) (fun Ym' => assign_cells Ym' idx' A' vals')
  | _, _, _ => Ok Ym
  end.

(** [Ym[idx, A] = G]. *)
Definition fancy_assign (Ym : list (list T)) (idx : list nat) (A : list Z)
    (G : ndval) : result (list (list T)) :=
  rbind (broadcast_to (length idx) G) (fun vals => assign_cells Ym idx A vals).

End Arrays.
Arguments ndval T : clear implicits.
Arguments label T : clear implicits.

(** ** The external collaborators

    The value function, the policy and their classes are not part of the two
    modules; they are the parameters of the development.  [MODELTYPE] is a
    class attribute that is fixed once per approximator (spec, section 3): it
    depends on the object only.  Everything else may read the [World];
    [vf_update] is the one operation that changes it.  [batch_eval] returns a
    new two-dimensional array on every call. *)

Class ValueFunctionAPI (T : Type) := {
  obj : Type;
  World : Type;
  Obs : Type;
  Feat : Type;
  FeatNext : Type;
  isinstance_ValuePolicy : obj -> bool;
  isinstance_BaseValueFunction : obj -> bool;
  (** the attribute [value_function] of a policy *)
  policy_value_function : obj -> obj;
  MODELTYPE : obj -> Z;
  (** [value_function.X(s, a)] *)
  X_state_action : obj -> World -> Obs -> Z -> Feat;
  (** [value_function.X(s)] *)
  X_state : obj -> World -> Obs -> Feat;
  preprocess_typeII : obj -> World -> Obs -> FeatNext;
  batch_eval : obj -> World -> Feat -> list (list T);
  (** [value_function.update(X, Y)] *)
  vf_update : obj -> World -> Feat -> label T -> World
}.

Section Algorithm.
Context {T : Type} `{Numeric T} `{ValueFunctionAPI T}.

(** A preprocessed transition [(X, A, R, X_next)]. *)
Record transition := {
  t_X : Feat;
  t_A : list Z;
  t_R : list T;
  t_X_next : FeatNext
}.

(** *** ExperienceCache *)

(** Modelled from the spec: the class [ExperienceCache] of [skgym/utils] is
    imported by [monte_carlo.py] but is not part of the two modules.  The spec
    (section 4.3) describes it as an ordered sequence: [append] adds at the
    end, [pop] removes and returns the most recently appended entry and fails
    on an empty cache, truth value means non-empty; with [overflow='grow'] no
    append is rejected and no entry is overwritten. *)
Definition ExperienceCache := list transition.

(** Modelled from the spec: [ExperienceCache(overflow='grow')]. *)
Definition cache_new : ExperienceCache := [].

(** Modelled from the spec: [ExperienceCache.append]. *)
Definition cache_append (c : ExperienceCache) (t : transition) : ExperienceCache :=
  c ++ [t].

(** Modelled from the spec: [ExperienceCache.pop]. *)
Definition cache_pop (c : ExperienceCache) : result (transition * ExperienceCache) :=
  match last c with
  | None => Raise EmptyCacheError
  | Some t => Ok (t, removelast c)
  end.

(** Modelled from the spec: [bool(cache)]. *)
Definition cache_bool (c : ExperienceCache) : bool :=
  match c with
  | [] => false
  | _ :: _ => true
  end.

(** *** The algorithm object and the machine *)

(** The attributes of a [MonteCarlo] instance. *)
Record MonteCarlo := {
  gamma : T;
  policy : option obj;
  value_function : obj;
  experience_cache : ExperienceCache
}.

(** The calls the development observes: [self.Y(X, A, G)],
    [value_function.batch_eval(X)] and [value_function.update(X, Y)]. *)
Inductive event :=
| EvY (X : Feat) (A : list Z) (G : ndval T)
| EvBatchEval (X : Feat)
| EvUpdate (X : Feat) (Yv : label T).

Record machine := {
  self : MonteCarlo;
  world : World;
  trace : list event
}.

Definition M (A : Type) : Type := machine -> result A * machine.

Definition ret {A} (a : A) : M A := fun m => (Ok a, m).

Definition bind {A B} (c : M A) (k : A -> M B) : M B :=
  fun m =>
    match c m with
    | (Ok a, m') => k a m'
    | (Raise e, m') => (Raise e, m')
    end.

Definition raise {A} (e : exn) : M A := fun m => (Raise e, m).

Definition lift {A} (r : result A) : M A := fun m => (r, m).

Definition get_self : M MonteCarlo := fun m => (Ok (self m), m).

Definition get_world : M World := fun m => (Ok (world m), m).

Definition set_world (w : World) : M unit :=
  fun m => (Ok tt, {| self := self m; world := w; trace := trace m |}).

Definition set_cache (c : ExperienceCache) : M unit :=
  fun m =>
    (Ok tt,
     {| self := {| gamma := gamma (self m);
                   policy := policy (self m);
                   value_function := value_function (self m);
                   experience_cache := c |};
        world := world m;
        trace := trace m |}).

Definition emit (ev : event) : M unit :=
  fun m => (Ok tt, {| self := self m; world := world m; trace := trace m ++ [ev] |}).

End Algorithm.

Declare Scope mc_scope.
Delimit Scope mc_scope with mc.
Notation "x <- c1 ;; c2" := (bind c1 (fun x => c2))
  (at level 100, c1 at next level, c2 at level 200, right associativity) : mc_scope.
Notation "c1 ;; c2" := (bind c1 (fun _ => c2))
  (at level 100, c2 at level 200, right associativity) : mc_scope.
Local Open Scope mc_scope.

Section Methods.
Context {T : Type} `{Numeric T} `{ValueFunctionAPI T}.

(** [self.experience_cache.append(X, A, R, X_next)] *)
Definition append (t : transition) : M unit :=
  me <- get_self ;;
  set_cache (cache_append (experience_cache me) t).

(** [self.experience_cache.pop()] *)
Definition pop : M transition :=
  me <- get_self ;;
  p <- lift (cache_pop (experience_cache me)) ;;
  set_cache (snd p) ;;
  ret (fst p).

(** [self.value_function.batch_eval(X)] *)
Definition call_batch_eval (X : Feat) : M (list (list T)) :=
  emit (EvBatchEval X) ;;
  me <- get_self ;;
  w <- get_world ;;
  ret (batch_eval (value_function me) w X).

(** [self.value_function.update(X, Y)] *)
Definition call_update (X : Feat) (Yv : label T) : M unit :=
  emit (EvUpdate X Yv) ;;
  me <- get_self ;;
  w <- get_world ;;
  set_world (vf_update (value_function me) w X Yv).

(** *** base.py *)

(** [BaseValueAlgorithm.__init__], lines 126-137; [cache] is the attribute
    [MonteCarlo.__init__] has set before it calls [super().__init__]. *)
Definition BaseValueAlgorithm_init (value_function_or_policy : obj) (gamma0 : T)
    (cache : ExperienceCache) : result MonteCarlo :=
  if isinstance_ValuePolicy value_function_or_policy then
    Ok {| gamma := gamma0;
          policy := Some value_function_or_policy;
          value_function := policy_value_function value_function_or_policy;
          experience_cache := cache |}
  else if isinstance_BaseValueFunction value_function_or_policy then
    Ok {| gamma := gamma0;
          policy := None;
          value_function := value_function_or_policy;
          experience_cache := cache |}
  else Raise (TypeError bad_type_msg).

(** [BaseValueAlgorithm.preprocess_transition], lines 139-159. *)
Definition preprocess_transition (s : Obs) (a : Z) (r : T) (s_next : Obs)
  : M transition :=
  me <- get_self ;;
  w <- get_world ;;
  let vf := value_function me in
  if MODELTYPE vf =? 1 then
    ret {| t_X := X_state_action vf w s a;
           t_A := [a];
           t_R := [r];
           t_X_next := preprocess_typeII vf w s_next |}
  else if MODELTYPE vf =? 2 then
    ret {| t_X := X_state vf w s;
           t_A := [a];
           t_R := [r];
           t_X_next := preprocess_typeII vf w s_next |}
  else raise (ValueError "bad MODELTYPE").

(** [BaseValueAlgorithm.Y], lines 161-168.  There is no [else] branch: for a
    third model type the local [Y] is read before it was ever assigned. *)
Definition Y (X : Feat) (A : list Z) (G : ndval T) : M (label T) :=
  emit (EvY X A G) ;;
  me <- get_self ;;
  if MODELTYPE (value_function me) =? 1 then
    ret (Y1d G)
  else if MODELTYPE (value_function me) =? 2 then
    Ym <- call_batch_eval X ;;
    let idx := arange (length A) in
    Ym' <- lift (fancy_assign Ym idx A G) ;;
    ret (Y2d Ym')
  else raise (UnboundLocalError "Y").

(** *** monte_carlo.py *)

(** [MonteCarlo.__init__], lines 23-25. *)
Definition MonteCarlo_init (value_function_or_policy : obj) (gamma0 : T)
  : result MonteCarlo :=
  BaseValueAlgorithm_init value_function_or_policy gamma0 cache_new.

(** The [while] loop of lines 65-71.  Every iteration pops one entry, so the
    loop is given one more unit of fuel than the cache has entries. *)
Fixpoint replay (fuel : nat) (G : ndval T) : M unit :=
  match fuel with
  | O => raise LoopFuelExhausted
  | S fuel' =>
      me <- get_self ;;
      if cache_bool (experience_cache me) then
        t <- pop ;;
        G' <- lift (np_add (t_R t) (np_scale (gamma me) G)) ;;
        Yv <- Y (t_X t) (t_A t) G' ;;
        call_update (t_X t) Yv ;;
        replay fuel' G'
      else ret tt
  end.

(** [MonteCarlo.update], lines 27-71. *)
Definition update (s : Obs) (a : Z) (r : T) (s_next : Obs) (done : bool) : M unit :=
  t <- preprocess_transition s a r s_next ;;
  append t ;;
  if negb done then ret tt
  else
    me <- get_self ;;
    replay (S (length (experience_cache me))) (Scalar zero).

End Methods.

(** ** A small concrete collaborator

    A value function over two actions that predicts the last row it was
    fitted on, in the three flavours the code distinguishes, a policy that
    wraps one of them and an object that is neither.  The theorems below are
    run on it. *)

Inductive toy_obj :=
| ToyQ1        (* a type-I value function *)
| ToyQ2        (* a type-II value function *)
| ToyQ3        (* a value function that reports MODELTYPE 3 *)
| ToyPolicy    (* a value-based policy around ToyQ2 *)
| ToyOther.    (* some other object *)

Definition toy_MODELTYPE (o : toy_obj) : Z :=
  match o with
  | ToyQ1 => 1
  | ToyQ2 => 2
  | ToyQ3 => 3
  | _ => 0
  end.

Definition toy_update {T} (w : T * T) (Yv : label T) : T * T :=
  match Yv with
  | Y2d [[y0; y1]] => (y0, y1)
  | _ => w
  end.

Definition toy_api (T : Type) : ValueFunctionAPI T :=
  {| obj := toy_obj;
     World := T * T;
     Obs := Z;
     Feat := list Z;
     FeatNext := list Z;
     isinstance_ValuePolicy := fun o => match o with ToyPolicy => true | _ => false end;
     isinstance_BaseValueFunction :=
       fun o => match o with ToyQ1 | ToyQ2 | ToyQ3 => true | _ => false end;
     policy_value_function := fun _ => ToyQ2;
     MODELTYPE := toy_MODELTYPE;
     X_state_action := fun _ _ s a => [s; a];
     X_state := fun _ _ s => [s];
     preprocess_typeII := fun _ _ s => [s];
     batch_eval := fun _ w _ => [[fst w; snd w]];
     vf_update := fun _ w _ Yv => toy_update w Yv |}.

Definition toy_alg {T} (vf : toy_obj) (g : T) : @MonteCarlo T (toy_api T) :=
  @Build_MonteCarlo T (toy_api T) g None vf [].

Definition toy_machine {T} (vf : toy_obj) (g : T) (w : T * T)
  : @machine T (toy_api T) :=
  @Build_machine T (toy_api T) (toy_alg vf g) w [].

(** ** Raw transitions and episodes *)

Section Episodes.
Context {T : Type} `{Numeric T} `{ValueFunctionAPI T}.

(** A raw transition [(s, a, r, s_next)], as the training loop passes it. *)
Record raw_transition := {
  raw_s : Obs;
  raw_a : Z;
  raw_r : T;
  raw_s_next : Obs
}.

Definition update_raw (st : raw_transition) (done : bool) : M unit :=
  update (raw_s st) (raw_a st) (raw_r st) (raw_s_next st) done.

(** What [preprocess_transition] returns for a raw transition in machine [m]. *)
Definition preprocess_in (m : machine) (st : raw_transition) : result transition :=
  fst (preprocess_transition (raw_s st) (raw_a st) (raw_r st) (raw_s_next st) m).

(** The calls of an episode before its last one: [update(..., done=False)]. *)
Fixpoint accumulate (steps : list raw_transition) : M unit :=
  match steps with
  | [] => ret tt
  | st :: rest => update_raw st false ;; accumulate rest
  end.

(** A whole episode: the calls with [done=False], then the terminal call. *)
Definition episode (steps : list raw_transition) (final : raw_transition) : M unit :=
  accumulate steps ;; update_raw final true.

(** The [update] calls on the approximator, in the order they were made. *)
Definition update_calls (tr : list event) : list (Feat * label T) :=
  omap (fun ev => match ev with EvUpdate X Yv => Some (X, Yv) | _ => None end) tr.

(** The calls of the target constructor [Y], in the order they were made. *)
Definition y_calls (tr : list event) : list (Feat * list Z * ndval T) :=
  omap (fun ev => match ev with EvY X A G => Some (X, A, G) | _ => None end) tr.

(** The [batch_eval] calls, in the order they were made. *)
Definition batch_eval_calls (tr : list event) : list Feat :=
  omap (fun ev => match ev with EvBatchEval X => Some X | _ => None end) tr.

(** The machine [m] with [evs] added to its trace. *)
Definition logged (m : machine) (evs : list event) : machine :=
  {| self := self m; world := world m; trace := trace m ++ evs |}.

(** The machine [m] with another cache. *)
Definition with_cache (m : machine) (c : ExperienceCache) : machine :=
  {| self := {| gamma := gamma (self m);
                policy := policy (self m);
                value_function := value_function (self m);
                experience_cache := c |};
     world := world m;
     trace := trace m |}.

(** The three attributes that are bound at construction. *)
Definition same_bindings (m m' : machine) : Prop :=
  gamma (self m') = gamma (self m) /\
  policy (self m') = policy (self m) /\
  value_function (self m') = value_function (self m).

(** A computation that never rebinds them, whatever it returns or raises. *)
Definition keeps_bindings {A} (c : M A) : Prop :=
  forall m, same_bindings m (snd (c m)).

(** The model type is one of the two the code knows. *)
Definition recognized (vf : obj) : Prop := MODELTYPE vf = 1 \/ MODELTYPE vf = 2.

(** Every prediction of [vf] for a one-row batch is one row of [nA] entries. *)
Definition one_row_predictions (vf : obj) (nA : Z) : Prop :=
  forall w X, exists row, batch_eval vf w X = [row] /\ Z.of_nat (length row) = nA.

(** [a] indexes an axis of length [nA], from the front or from the end. *)
Definition valid_index (nA a : Z) : Prop := - nA <= a < nA.

(** The approximator is usable with the actions [acts]: it is of type I, or
    it is of type II and every action indexes its prediction rows. *)
Definition supported (vf : obj) (acts : list Z) : Prop :=
  MODELTYPE vf = 1 \/
  (MODELTYPE vf = 2 /\
   exists nA, one_row_predictions vf nA /\ Forall (valid_index nA) acts).

(** A computation that never runs out of loop fuel and leaves the cache as
    it is, whatever it returns or raises. *)
Definition cache_neutral {A} (c : M A) : Prop :=
  forall m,
    fst (c m) <> Raise LoopFuelExhausted /\
    experience_cache (self (snd (c m))) = experience_cache (self m).

End Episodes.

(** ** What a replay leaves in the trace *)

Section ReplaySpec.
Context {T : Type} `{Numeric T} `{ValueFunctionAPI T}.

(** The value the next replay step discounts: the scalar [G = 0] of line 62
    or the one entry of the array [G] of the step before. *)
Definition carries (G : ndval T) (g : T) : Prop :=
  G = Scalar g \/ G = Arr1 [g].

(** The label [Yv] built for action [a] holds the return [g] where the
    approximator is supervised: it is [g] itself for type I, and the entry at
    index [a] of the one prediction row for type II. *)
Definition target_carries (vf : obj) (a : Z) (g : T) (Yv : label T) : Prop :=
  (MODELTYPE vf = 1 /\ Yv = Y1d (Arr1 [g])) \/
  (MODELTYPE vf = 2 /\
   exists row j, Yv = Y2d [row] /\ normalize_index (length row) a = Ok j /\
                 row !! j = Some g).

(** The returns of a replay that pops the rewards [rs] in this order,
    starting from [g]. *)
Fixpoint returns_scan (gam g : T) (rs : list T) : list T :=
  match rs with
  | [] => []
  | r :: rs' => add r (mul gam g) :: returns_scan gam (add r (mul gam g)) rs'
  end.

(** [replayed vf gam g ts tr]: [tr] is the trace of a replay that starts with
    the return [g] and pops the transitions [ts] in this order. *)
Inductive replayed (vf : obj) (gam : T) : T -> list transition -> list event -> Prop :=
| replayed_nil g : replayed vf gam g [] []
| replayed_step g t ts a r Yv tr :
    t_A t = [a] ->
    t_R t = [r] ->
    target_carries vf a (add r (mul gam g)) Yv ->
    replayed vf gam (add r (mul gam g)) ts tr ->
    replayed vf gam g (t :: ts)
      (EvY (t_X t) [a] (Arr1 [add r (mul gam g)])
       :: (if MODELTYPE vf =? 2 then [EvBatchEval (t_X t)] else [])
       ++ EvUpdate (t_X t) Yv :: tr).

(** The first reward of a preprocessed transition ([R] is a batch of one). *)
Definition reward (t : transition) : T := default zero (head (t_R t)).

(** Every cached transition is a batch of one action and one reward. *)
Definition unit_batch (t : transition) : Prop :=
  exists a r, t_A t = [a] /\ t_R t = [r].

End ReplaySpec.

(** ** The discounted return of the spec, in exact arithmetic *)

(** [gam^k * r_0 + gam^(k+1) * r_1 + ...] *)
Fixpoint discounted_from (gam : Q) (k : nat) (rs : list Q) : Q :=
  match rs with
  | [] => 0
  | r :: rs' => gam ^ Z.of_nat k * r + discounted_from gam (S k) rs'
  end.

(** The return of step [i] (counted from 1) of an episode with the rewards
    [rs]: [r_i + gam * r_(i+1) + gam^2 * r_(i+2) + ... + gam^(n-i) * r_n]. *)
Definition discounted_return (gam : Q) (rs : list Q) (i : nat) : Q :=
  discounted_from gam 0 (drop (i - 1) rs).

(** ** base.py, [BasePolicyAlgorithm]

    [BasePolicyAlgorithm.__init__] (lines 188-190) stores the policy and then
    calls [super(BaseAlgorithm, self).__init__(gamma=gamma)]: the search for
    [__init__] starts behind [BaseAlgorithm] in the method resolution order of
    the object's class.  The classes are modelled as far as that search needs
    them. *)

Inductive pyclass :=
| Cls_object
| Cls_ABC
| Cls_BaseAlgorithm
| Cls_BaseValueAlgorithm
| Cls_BasePolicyAlgorithm
| Cls_MonteCarlo
| Cls_user (name : string) (has_init : bool).   (* a subclass written by a user *)

Definition pyclass_eqb (c d : pyclass) : bool :=
  match c, d with
  | Cls_object, Cls_object
  | Cls_ABC, Cls_ABC
  | Cls_BaseAlgorithm, Cls_BaseAlgorithm
  | Cls_BaseValueAlgorithm, Cls_BaseValueAlgorithm
  | Cls_BasePolicyAlgorithm, Cls_BasePolicyAlgorithm
  | Cls_MonteCarlo, Cls_MonteCarlo => true
  | Cls_user n _, Cls_user n' _ => String.eqb n n'
  | _, _ => false
  end.

(** Whether the class body defines [__init__]; [abc.ABC] does not. *)
Definition defines_init (c : pyclass) : bool :=
  match c with
  | Cls_ABC => false
  | Cls_user _ has_init => has_init
  | _ => true
  end.

(** The part of a method resolution order behind the class [start]. *)
Fixpoint mro_after (start : pyclass) (mro : list pyclass) : list pyclass :=
  match mro with
  | [] => []
  | c :: rest => if pyclass_eqb c start then rest else mro_after start rest
  end.

(** [super(start, self).__init__]: the first [__init__] behind [start] in the
    method resolution order [mro] of [type(self)]. *)
Definition super_init (start : pyclass) (mro : list pyclass) : option pyclass :=
  find defines_init (mro_after start mro).

(** The method resolution orders of the classes of the two modules. *)
Definition mro_MonteCarlo : list pyclass :=
  [Cls_MonteCarlo; Cls_BaseValueAlgorithm; Cls_BaseAlgorithm; Cls_ABC; Cls_object].

Definition mro_BasePolicyAlgorithm : list pyclass :=
  [Cls_BasePolicyAlgorithm; Cls_BaseAlgorithm; Cls_ABC; Cls_object].

Section PolicyAlgorithm.
Context {T : Type} `{ValueFunctionAPI T}.

(** The attributes of an object under construction; [None] is an attribute
    that was not assigned yet. *)
Record attributes := {
  attr_policy : option obj;
  attr_gamma : option T
}.

Definition no_attributes : attributes :=
  {| attr_policy := None; attr_gamma := None |}.

(** What the [__init__] of a user's class does with the keyword [gamma]. *)
Variable user_init : string -> T -> attributes -> result unit * attributes.

(** [cls.__init__(self, gamma=gamma)]: [BaseAlgorithm.__init__] (lines
    18-19) stores the keyword; [object.__init__] rejects every argument of an
    object whose class defines [__init__]; the constructors of lines 23, 126
    and 188 miss their first argument. *)
Definition call_init_gamma (cls : pyclass) (gamma0 : T) (o : attributes)
  : result unit * attributes :=
  match cls with
  | Cls_BaseAlgorithm =>
      (Ok tt, {| attr_policy := attr_policy o; attr_gamma := Some gamma0 |})
  | Cls_object =>
      (Raise (TypeError
         "object.__init__() takes exactly one argument (the instance to initialize)"),
       o)
  | Cls_user name _ => user_init name gamma0 o
  | _ => (Raise (TypeError "__init__() missing 1 required positional argument"), o)
  end.

(** [BasePolicyAlgorithm.__init__], lines 188-190, on an object whose class
    has the method resolution order [mro]. *)
Definition BasePolicyAlgorithm_init (mro : list pyclass) (policy0 : obj) (gamma0 : T)
    (o : attributes) : result unit * attributes :=
  let o1 := {| attr_policy := Some policy0; attr_gamma := attr_gamma o |} in
  match super_init Cls_BaseAlgorithm mro with
  | Some cls => call_init_gamma cls gamma0 o1
  | None => (Raise (TypeError "super object has no __init__"), o1)
  end.

End PolicyAlgorithm.

(** ** The scenario of the spec

    An episode of three steps with the rewards [r1], [r2], [r3] on the small
    collaborator. *)

Definition toy_step {T} (s a : Z) (r : T) (s_next : Z)
  : @raw_transition T (toy_api T) :=
  @Build_raw_transition T (toy_api T) s a r s_next.

Definition scenario_steps {T} (r1 r2 : T) : list (@raw_transition T (toy_api T)) :=
  [toy_step 0 0 r1 1; toy_step 1 1 r2 2].

Definition scenario_final {T} (r3 : T) : @raw_transition T (toy_api T) :=
  toy_step 2 0 r3 3.

(** The returns passed to [Y] in the trace of a machine, in call order. *)
Definition returns_used {T} `{ValueFunctionAPI T} (m : machine) : list (ndval T) :=
  map snd (y_calls (trace m)).

(** Binary64 arithmetic, to run the scenario on the numbers Python uses. *)
Definition float_numeric : Numeric float :=
  {| zero := 0%float; add := PrimFloat.add; mul := PrimFloat.mul |}.

(** * Properties *)

Ltac run_monad :=
  unfold update_raw, update, append, pop, call_batch_eval, call_update,
    preprocess_transition, Y, bind, ret, raise, lift, get_self, get_world,
    set_world, set_cache, emit, cache_append in *;
  simpl in *.

Section BasicFacts.
Context {T : Type} `{Numeric T} `{ValueFunctionAPI T}.

Lemma cache_pop_snoc (c : ExperienceCache) (t : transition) :
  cache_pop (c ++ [t]) = Ok (t, c).
Proof.
  unfold cache_pop. rewrite last_snoc. now rewrite removelast_last.
Qed.

Lemma cache_bool_snoc (c : ExperienceCache) (t : transition) :
  cache_bool (c ++ [t]) = true.
Proof. now destruct c. Qed.

Lemma preprocess_frame s a r s_next (m : machine) :
  snd (preprocess_transition s a r s_next m) = m.
Proof.
  run_monad.
  destruct (MODELTYPE (value_function (self m)) =? 1); [reflexivity|].
  destruct (MODELTYPE (value_function (self m)) =? 2); reflexivity.
Qed.

Lemma preprocess_recognized s a r s_next (m : machine) :
  recognized (value_function (self m)) ->
  exists t, preprocess_transition s a r s_next m = (Ok t, m) /\
            t_A t = [a] /\ t_R t = [r].
Proof.
  intros [E|E]; run_monad; rewrite E; simpl; eauto.
Qed.

Lemma preprocess_unrecognized s a r s_next (m : machine) :
  ~ recognized (value_function (self m)) ->
  preprocess_transition s a r s_next m = (Raise (ValueError "bad MODELTYPE"), m).
Proof.
  intros N. run_monad.
  destruct (Z.eqb_spec (MODELTYPE (value_function (self m))) 1) as [E|_].
  { exfalso. apply N. now left. }
  destruct (Z.eqb_spec (MODELTYPE (value_function (self m))) 2) as [E|_].
  { exfalso. apply N. now right. }
  reflexivity.
Qed.

Lemma preprocess_same_world s a r s_next (m m' : machine) :
  value_function (self m') = value_function (self m) ->
  world m' = world m ->
  fst (preprocess_transition s a r s_next m')
  = fst (preprocess_transition s a r s_next m).
Proof.
  intros Ev Ew. run_monad. rewrite Ev, Ew.
  destruct (MODELTYPE (value_function (self m)) =? 1); [reflexivity|].
  destruct (MODELTYPE (value_function (self m)) =? 2); reflexivity.
Qed.

Lemma update_after_preprocess s a r s_next done (m : machine) (t : transition) :
  preprocess_transition s a r s_next m = (Ok t, m) ->
  update s a r s_next done m
  = if done
    then replay (S (length (experience_cache (self m) ++ [t]))) (Scalar zero)
           (with_cache m (experience_cache (self m) ++ [t]))
    else (Ok tt, with_cache m (experience_cache (self m) ++ [t])).
Proof.
  intros E. unfold update, bind at 1. rewrite E.
  destruct done; reflexivity.
Qed.

(** *** The bindings are never touched *)

Lemma same_bindings_refl (m : machine) : same_bindings m m.
Proof. repeat split. Qed.

Lemma same_bindings_trans (m1 m2 m3 : machine) :
  same_bindings m1 m2 -> same_bindings m2 m3 -> same_bindings m1 m3.
Proof.
  unfold same_bindings. intros (a & b & c) (d & e & f).
  repeat split; congruence.
Qed.

Lemma kb_ret {A} (a : A) : keeps_bindings (ret a).
Proof. intros m. apply same_bindings_refl. Qed.

Lemma kb_raise {A} (e : exn) : keeps_bindings (@raise _ _ A e).
Proof. intros m. apply same_bindings_refl. Qed.

Lemma kb_lift {A} (r : result A) : keeps_bindings (lift r).
Proof. intros m. apply same_bindings_refl. Qed.

Lemma kb_get_self : keeps_bindings get_self.
Proof. intros m. apply same_bindings_refl. Qed.

Lemma kb_get_world : keeps_bindings get_world.
Proof. intros m. apply same_bindings_refl. Qed.

Lemma kb_set_world (w : World) : keeps_bindings (set_world w).
Proof. intros m. repeat split. Qed.

Lemma kb_set_cache (c : ExperienceCache) : keeps_bindings (set_cache c).
Proof. intros m. repeat split. Qed.

Lemma kb_emit (ev : event) : keeps_bindings (emit ev).
Proof. intros m. repeat split. Qed.

Lemma kb_bind {A B} (c : M A) (k : A -> M B) :
  keeps_bindings c -> (forall a, keeps_bindings (k a)) ->
  keeps_bindings (bind c k).
Proof.
  intros Hc Hk m. unfold bind. specialize (Hc m).
  destruct (c m) as [[a|e] m1]; simpl in *; [|exact Hc].
  eapply same_bindings_trans; [exact Hc|apply Hk].
Qed.

Lemma kb_if {A} (b : bool) (c1 c2 : M A) :
  keeps_bindings c1 -> keeps_bindings c2 ->
  keeps_bindings (if b then c1 else c2).
Proof. now destruct b. Qed.

End BasicFacts.

Create HintDb kb.
#[export] Hint Resolve kb_ret kb_raise kb_lift kb_get_self kb_get_world
  kb_set_world kb_set_cache kb_emit kb_if : kb.

Ltac kb_steps :=
  repeat first
    [ apply kb_bind; [|intros ?]
    | apply kb_if
    | solve [auto with kb] ].

Section Frame.
Context {T : Type} `{Numeric T} `{ValueFunctionAPI T}.

Lemma kb_preprocess s a r s_next :
  keeps_bindings (preprocess_transition s a r s_next).
Proof. unfold preprocess_transition. kb_steps. Qed.

Lemma kb_append (t : transition) : keeps_bindings (append t).
Proof. unfold append. kb_steps. Qed.

Lemma kb_pop : keeps_bindings pop.
Proof. unfold pop. kb_steps. Qed.

Lemma kb_Y (X : Feat) (A : list Z) (G : ndval T) : keeps_bindings (Y X A G).
Proof. unfold Y, call_batch_eval. kb_steps. Qed.

Lemma kb_call_update (X : Feat) (Yv : label T) : keeps_bindings (call_update X Yv).
Proof. unfold call_update. kb_steps. Qed.

Lemma kb_replay (fuel : nat) : forall G, keeps_bindings (replay fuel G).
Proof.
  induction fuel as [|fuel IH]; intros G; simpl.
  - apply kb_raise.
  - apply kb_bind; [apply kb_get_self|intros me].
    apply kb_if; [|apply kb_ret].
    apply kb_bind; [apply kb_pop|intros t].
    apply kb_bind; [apply kb_lift|intros G'].
    apply kb_bind; [apply kb_Y|intros Yv].
    apply kb_bind; [apply kb_call_update|intros _].
    apply IH.
Qed.

Lemma kb_update s a r s_next done : keeps_bindings (update s a r s_next done).
Proof.
  unfold update.
  apply kb_bind; [apply kb_preprocess|intros t].
  apply kb_bind; [apply kb_append|intros _].
  apply kb_if; [apply kb_ret|].
  apply kb_bind; [apply kb_get_self|intros me].
  apply kb_replay.
Qed.

End Frame.

(** ** Construction *)

(** C8. [MonteCarlo.__init__] is [BaseValueAlgorithm.__init__] on an object
    whose cache is new, and for every argument [v]: if [v] is neither a
    value-based policy nor a value function the construction raises the
    [TypeError], so no algorithm object exists on which an update could run;
    if [v] is a value-based policy the stored value function is the one the
    policy wraps and the policy is [v]; if [v] is a bare value function the
    stored value function is [v] itself and there is no policy. *)
Theorem construction_resolves_value_function
    {T : Type} `{Numeric T} `{ValueFunctionAPI T} (v : obj) (g : T) :
  MonteCarlo_init v g = BaseValueAlgorithm_init v g cache_new /\
  forall c : ExperienceCache,
    (isinstance_ValuePolicy v = false ->
     isinstance_BaseValueFunction v = false ->
     BaseValueAlgorithm_init v g c = Raise (TypeError bad_type_msg)) /\
    (isinstance_ValuePolicy v = true ->
     exists alg, BaseValueAlgorithm_init v g c = Ok alg /\
                 value_function alg = policy_value_function v /\
                 policy alg = Some v /\
                 gamma alg = g /\ experience_cache alg = c) /\
    (isinstance_ValuePolicy v = false ->
     isinstance_BaseValueFunction v = true ->
     exists alg, BaseValueAlgorithm_init v g c = Ok alg /\
                 value_function alg = v /\
                 policy alg = None /\
                 gamma alg = g /\ experience_cache alg = c).
Proof.
  split; [reflexivity|]. intros c. unfold BaseValueAlgorithm_init.
  repeat split.
  - intros -> ->. reflexivity.
  - intros ->. eexists. repeat split.
  - intros -> ->. eexists. repeat split.
Qed.

Lemma construction_resolves_value_function_witness :
  @MonteCarlo_init Q (toy_api Q) ToyOther (1 # 2)%Q = Raise (TypeError bad_type_msg) /\
  (exists alg, @MonteCarlo_init Q (toy_api Q) ToyPolicy (1 # 2)%Q = Ok alg /\
               value_function alg = ToyQ2 /\ policy alg = Some ToyPolicy) /\
  (exists alg, @MonteCarlo_init Q (toy_api Q) ToyQ1 (1 # 2)%Q = Ok alg /\
               value_function alg = ToyQ1 /\ policy alg = None).
Proof.
  split; [|split].
  - destruct (@construction_resolves_value_function Q _ (toy_api Q)
                ToyOther (1 # 2)%Q) as [E K].
    rewrite E. destruct (K cache_new) as [K1 _]. apply K1; reflexivity.
  - destruct (@construction_resolves_value_function Q _ (toy_api Q)
                ToyPolicy (1 # 2)%Q) as [E K].
    rewrite E. destruct (K cache_new) as (_ & K2 & _).
    destruct (K2 eq_refl) as (alg & E1 & E2 & E3 & _).
    exists alg. repeat split; assumption.
  - destruct (@construction_resolves_value_function Q _ (toy_api Q)
                ToyQ1 (1 # 2)%Q) as [E K].
    rewrite E. destruct (K cache_new) as (_ & _ & K3).
    destruct (K3 eq_refl eq_refl) as (alg & E1 & E2 & E3 & _).
    exists alg. repeat split; assumption.
Defined.

(** ** The target constructor *)

(** C5. For a type-I approximator [Y(X, A, G)] returns [G] itself, whatever
    the state of the approximator is; it leaves that state as it was and does
    not call [batch_eval]. *)
Theorem Y_type_I_returns_G
    {T : Type} `{Numeric T} `{ValueFunctionAPI T}
    (m : machine) (X : Feat) (A : list Z) (G : ndval T) :
  MODELTYPE (value_function (self m)) = 1 ->
  fst (Y X A G m) = Ok (Y1d G) /\
  world (snd (Y X A G m)) = world m /\
  batch_eval_calls (trace (snd (Y X A G m))) = batch_eval_calls (trace m).
Proof.
  intros E. run_monad. rewrite E. simpl. repeat split.
  unfold batch_eval_calls. rewrite omap_app. simpl. apply app_nil_r.
Qed.

Lemma Y_type_I_returns_G_witness :
  fst (@Y Q (toy_api Q) [0; 1] [1] (Arr1 [3%Q]) (toy_machine ToyQ1 (1 # 2)%Q (7%Q, 0%Q)))
  = Ok (Y1d (Arr1 [3%Q])).
Proof.
  apply (@Y_type_I_returns_G Q _ (toy_api Q)
           (toy_machine ToyQ1 (1 # 2)%Q (7%Q, 0%Q)) [0; 1] [1] (Arr1 [3%Q])).
  reflexivity.
Defined.

(** C6. For a model type other than 1 and 2, [preprocess_transition] raises
    [ValueError("bad MODELTYPE")], but [Y] does not: it has no [else] branch
    and fails with an [UnboundLocalError] on its own local variable. *)
Theorem unrecognized_model_type
    {T : Type} `{Numeric T} `{ValueFunctionAPI T}
    (m : machine) (s : Obs) (a : Z) (r : T) (s_next : Obs)
    (X : Feat) (A : list Z) (G : ndval T) :
  ~ recognized (value_function (self m)) ->
  fst (preprocess_transition s a r s_next m) = Raise (ValueError "bad MODELTYPE") /\
  fst (Y X A G m) = Raise (UnboundLocalError "Y") /\
  fst (Y X A G m) <> Raise (ValueError "bad MODELTYPE").
Proof.
  intros N. rewrite preprocess_unrecognized by assumption.
  split; [reflexivity|].
  assert (E : fst (Y X A G m) = Raise (UnboundLocalError "Y")).
  { run_monad.
    destruct (Z.eqb_spec (MODELTYPE (value_function (self m))) 1) as [E|_].
    { exfalso. apply N. now left. }
    destruct (Z.eqb_spec (MODELTYPE (value_function (self m))) 2) as [E|_].
    { exfalso. apply N. now right. }
    reflexivity. }
  rewrite E. split; [reflexivity|discriminate].
Qed.

Lemma unrecognized_model_type_witness :
  fst (@Y Q (toy_api Q) [0] [0] (Arr1 [1%Q]) (toy_machine ToyQ3 (1 # 2)%Q (0%Q, 0%Q)))
  = Raise (UnboundLocalError "Y").
Proof.
  apply (@unrecognized_model_type Q _ (toy_api Q)
           (toy_machine ToyQ3 (1 # 2)%Q (0%Q, 0%Q)) 0 0 1%Q 1 [0] [0] (Arr1 [1%Q])).
  intros [E|E]; discriminate E.
Defined.

(** ** One call of [update] *)

(** C7. A call of [update] with [done=False] leaves the trace of calls and
    the state of the approximator as they were (no approximator update), and
    when the model type is recognized it returns normally with exactly the
    preprocessed transition added at the end of the cache. *)
Theorem update_not_done_appends_one
    {T : Type} `{Numeric T} `{ValueFunctionAPI T}
    (m : machine) (s : Obs) (a : Z) (r : T) (s_next : Obs) :
  let m' := snd (update s a r s_next false m) in
  trace m' = trace m /\
  world m' = world m /\
  (recognized (value_function (self m)) ->
   fst (update s a r s_next false m) = Ok tt /\
   exists t, fst (preprocess_transition s a r s_next m) = Ok t /\
             experience_cache (self m') = experience_cache (self m) ++ [t] /\
             length (experience_cache (self m'))
             = S (length (experience_cache (self m)))).
Proof.
  simpl.
  assert (F := preprocess_frame s a r s_next m).
  destruct (preprocess_transition s a r s_next m) as [[t|e] m1] eqn:E;
    simpl in F; subst m1.
  - rewrite (update_after_preprocess _ _ _ _ _ _ _ E). simpl.
    split; [reflexivity|]. split; [reflexivity|].
    intros _. split; [reflexivity|].
    exists t. split; [reflexivity|]. split; [reflexivity|].
    rewrite length_app. simpl. lia.
  - assert (U : update s a r s_next false m = (Raise e, m)).
    { unfold update, bind at 1. now rewrite E. }
    rewrite U. simpl. split; [reflexivity|]. split; [reflexivity|].
    intros R. destruct (preprocess_recognized s a r s_next m R) as (t & Et & _).
    congruence.
Qed.

Lemma update_not_done_appends_one_witness :
  length (experience_cache (self (snd (@update Q _ (toy_api Q) 0 1 3%Q 1 false
            (toy_machine ToyQ2 (1 # 2)%Q (0%Q, 0%Q)))))) = 1%nat.
Proof.
  destruct (@update_not_done_appends_one Q _ (toy_api Q)
              (toy_machine ToyQ2 (1 # 2)%Q (0%Q, 0%Q)) 0 1 3%Q 1) as (_ & _ & K).
  destruct K as (_ & t & _ & _ & L).
  - right. reflexivity.
  - exact L.
Defined.

(** C9. If [preprocess_transition] raises, [update] raises the same
    exception and the machine is as before the call: nothing was appended to
    the cache and no call was made on the approximator. *)
Theorem update_preprocess_raises
    {T : Type} `{Numeric T} `{ValueFunctionAPI T}
    (m : machine) (s : Obs) (a : Z) (r : T) (s_next : Obs) (done : bool) (e : exn) :
  fst (preprocess_transition s a r s_next m) = Raise e ->
  update s a r s_next done m = (Raise e, m).
Proof.
  intros E. assert (F := preprocess_frame s a r s_next m).
  unfold update, bind at 1.
  destruct (preprocess_transition s a r s_next m) as [[t|e'] m1];
    simpl in *; congruence.
Qed.

Lemma update_preprocess_raises_witness :
  @update Q _ (toy_api Q) 0 1 3%Q 1 true (toy_machine ToyQ3 (1 # 2)%Q (0%Q, 0%Q))
  = (Raise (ValueError "bad MODELTYPE"), toy_machine ToyQ3 (1 # 2)%Q (0%Q, 0%Q)).
Proof.
  apply (@update_preprocess_raises Q _ (toy_api Q)).
  reflexivity.
Defined.

(** C10. No call of [update], with either value of [done] and whether it
    returns or raises, changes the discount factor, the policy binding or the
    value-function binding of the algorithm object. *)
Theorem update_keeps_bindings
    {T : Type} `{Numeric T} `{ValueFunctionAPI T}
    (m : machine) (s : Obs) (a : Z) (r : T) (s_next : Obs) (done : bool) :
  let m' := snd (update s a r s_next done m) in
  gamma (self m') = gamma (self m) /\
  policy (self m') = policy (self m) /\
  value_function (self m') = value_function (self m).
Proof. exact (kb_update s a r s_next done m). Qed.

(** ** The replay loop *)

Section Replay.
Context {T : Type} `{Numeric T} `{ValueFunctionAPI T}.

Lemma bind_ok {A B} (c : M A) (k : A -> M B) (m m' : machine) (a : A) :
  c m = (Ok a, m') -> bind c k m = k a m'.
Proof. intros E. unfold bind. now rewrite E. Qed.

Lemma with_cache_twice (m : machine) (c c' : ExperienceCache) :
  with_cache (with_cache m c) c' = with_cache m c'.
Proof. reflexivity. Qed.

Lemma pop_run (m : machine) (c : ExperienceCache) (t : transition) :
  experience_cache (self m) = c ++ [t] ->
  pop m = (Ok t, with_cache m c).
Proof.
  intros E. unfold pop, bind, get_self, lift. rewrite E, cache_pop_snoc.
  reflexivity.
Qed.

Lemma np_step (gam r g : T) (G : ndval T) :
  carries G g ->
  np_add [r] (np_scale gam G) = Ok (Arr1 [add r (mul gam g)]).
Proof. intros [-> | ->]; reflexivity. Qed.

Lemma normalize_index_valid (n : nat) (a : Z) :
  valid_index (Z.of_nat n) a ->
  exists j, normalize_index n a = Ok j /\ (j < n)%nat.
Proof.
  unfold valid_index, normalize_index. intros Ha.
  destruct (Z.leb_spec 0 a); simpl.
  - destruct (Z.ltb_spec a (Z.of_nat n)); [|lia].
    exists (Z.to_nat a). split; [reflexivity|lia].
  - destruct (Z.leb_spec (- Z.of_nat n) a); [|lia].
    destruct (Z.ltb_spec a 0); [|lia]. simpl.
    exists (Z.to_nat (a + Z.of_nat n)). split; [reflexivity|lia].
Qed.

Lemma supported_incl (vf : obj) (acts acts' : list Z) :
  (forall a, a ∈ acts' -> a ∈ acts) ->
  supported vf acts -> supported vf acts'.
Proof.
  intros I [E | (E & nA & P & F)]; [now left|right].
  split; [assumption|]. exists nA. split; [assumption|].
  rewrite Forall_forall in *. auto.
Qed.

Lemma supported_recognized (vf : obj) (acts : list Z) :
  supported vf acts -> recognized vf.
Proof. intros [E | (E & _)]; [now left|now right]. Qed.

(** [Y] on a batch of one, for a supported approximator. *)
Lemma Y_run (m : machine) (X : Feat) (a : Z) (g : T) :
  supported (value_function (self m)) [a] ->
  exists Yv,
    Y X [a] (Arr1 [g]) m
    = (Ok Yv,
       logged m (EvY X [a] (Arr1 [g])
                 :: if MODELTYPE (value_function (self m)) =? 2
                    then [EvBatchEval X] else [])) /\
    target_carries (value_function (self m)) a g Yv.
Proof.
  intros [E | (E & nA & P & F)].
  - exists (Y1d (Arr1 [g])). split; [|now left].
    unfold Y, bind, emit, get_self, ret, logged. simpl. rewrite E. reflexivity.
  - destruct (P (world m) X) as (row & Er & Lr).
    apply Forall_cons_1 in F as [Va _]. rewrite <- Lr in Va.
    destruct (normalize_index_valid _ _ Va) as (j & Ej & Lj).
    exists (Y2d [<[j := g]> row]). split.
    + unfold Y, call_batch_eval, bind, emit, get_self, get_world, ret, lift, logged.
      simpl. rewrite E. simpl. rewrite Er.
      unfold fancy_assign. simpl. unfold set_item. simpl. rewrite Ej. simpl.
      rewrite <- app_assoc. reflexivity.
    + right. split; [assumption|]. exists (<[j := g]> row), j.
      split; [reflexivity|]. rewrite length_insert. split; [assumption|].
      now apply list_lookup_insert_eq.
Qed.

Lemma call_update_run (m : machine) (X : Feat) (Yv : label T) :
  call_update X Yv m
  = (Ok tt,
     {| self := self m;
        world := vf_update (value_function (self m)) (world m) X Yv;
        trace := trace m ++ [EvUpdate X Yv] |}).
Proof. reflexivity. Qed.

(** The loop on a cache [c] of one-row transitions: it returns, the cache is
    empty afterwards, and the trace grows by a replay of [reverse c]. *)
Lemma replay_run (c : ExperienceCache) :
  forall (fuel : nat) (m : machine) (G : ndval T) (g : T),
    experience_cache (self m) = c ->
    Forall unit_batch c ->
    supported (value_function (self m)) (concat (map t_A c)) ->
    carries G g ->
    (length c < fuel)%nat ->
    exists tr w,
      replay fuel G m
      = (Ok tt, {| self := self (with_cache m []); world := w; trace := trace m ++ tr |}) /\
      replayed (value_function (self m)) (gamma (self m)) g (reverse c) tr.
Proof.
  induction c as [|t c IH] using rev_ind; intros fuel m G g Ec Hu Hs Hg Hf.
  - destruct fuel as [|fuel]; [simpl in Hf; lia|].
    exists [], (world m). split; [|constructor].
    simpl. unfold bind, get_self. rewrite Ec. simpl. unfold ret.
    rewrite app_nil_r. destruct m as [[? ? ? ?] ? ?]. simpl in *. now subst.
  - destruct fuel as [|fuel]; [simpl in Hf; lia|].
    rewrite length_app in Hf. simpl in Hf.
    apply Forall_app in Hu as [Hu Ht]. apply Forall_cons_1 in Ht as [Ht _].
    destruct Ht as (a & r & Ea & Er).
    assert (Hs1 : supported (value_function (self m)) [a]).
    { eapply supported_incl; [|exact Hs]. intros x Hx.
      rewrite map_app, concat_app. simpl. rewrite Ea. simpl.
      apply elem_of_app. now right. }
    assert (Hs2 : supported (value_function (self m)) (concat (map t_A c))).
    { eapply supported_incl; [|exact Hs]. intros x Hx.
      rewrite map_app, concat_app. apply elem_of_app. now left. }
    simpl replay.
    rewrite (bind_ok get_self _ m m (self m) eq_refl).
    rewrite Ec, cache_bool_snoc.
    rewrite (bind_ok pop _ m _ t (pop_run m c t Ec)).
    rewrite Er, (np_step _ r g G Hg).
    rewrite (bind_ok (lift _) _ (with_cache m c) (with_cache m c) _ eq_refl).
    rewrite Ea.
    destruct (Y_run (with_cache m c) (t_X t) a (add r (mul (gamma (self m)) g)) Hs1)
      as (Yv & EY & HY).
    rewrite (bind_ok _ _ _ _ _ EY).
    rewrite (bind_ok _ _ _ _ _ (call_update_run _ _ _)).
    edestruct (IH fuel) as (tr & w & ER & HR);
      [| exact Hu | | right; reflexivity | | ]; cycle -1.
    + rewrite ER. simpl. eexists _, w. split.
      * rewrite <- !app_assoc. simpl. reflexivity.
      * rewrite reverse_snoc.
        econstructor; eauto.
    + reflexivity.
    + exact Hs2.
    + lia.
Qed.

(** The calls with [done=False] only grow the cache. *)
Lemma accumulate_run (steps : list raw_transition) :
  forall m : machine,
    recognized (value_function (self m)) ->
    exists ts,
      accumulate steps m = (Ok tt, with_cache m (experience_cache (self m) ++ ts)) /\
      Forall2 (fun st t => preprocess_in m st = Ok t /\
                           t_A t = [raw_a st] /\ t_R t = [raw_r st]) steps ts.
Proof.
  induction steps as [|st steps IH]; intros m Hr.
  - exists []. split; [|constructor].
    simpl. unfold ret. rewrite app_nil_r.
    destruct m as [[? ? ? ?] ? ?]. reflexivity.
  - destruct (preprocess_recognized (raw_s st) (raw_a st) (raw_r st) (raw_s_next st) m Hr)
      as (t & Et & Ea & Er).
    destruct (IH (with_cache m (experience_cache (self m) ++ [t])) Hr)
      as (ts & Eacc & Hts).
    exists (t :: ts). split.
    + simpl accumulate. unfold update_raw.
      rewrite (bind_ok _ _ m (with_cache m (experience_cache (self m) ++ [t])) tt).
      * rewrite Eacc. simpl. rewrite <- app_assoc. reflexivity.
      * rewrite (update_after_preprocess _ _ _ _ _ _ _ Et). reflexivity.
    + constructor.
      * unfold preprocess_in. rewrite Et. auto.
      * eapply Forall2_impl; [exact Hts|]. intros st' t' (E1 & E2 & E3).
        split; [|auto]. rewrite <- E1. unfold preprocess_in.
        symmetry. apply preprocess_same_world; reflexivity.
Qed.

(** A whole episode that starts with an empty cache. *)
Lemma episode_run (steps : list raw_transition) (final : raw_transition) (m : machine) :
  experience_cache (self m) = [] ->
  supported (value_function (self m)) (map raw_a (steps ++ [final])) ->
  exists ts tr w,
    Forall2 (fun st t => preprocess_in m st = Ok t /\
                         t_A t = [raw_a st] /\ t_R t = [raw_r st])
            (steps ++ [final]) ts /\
    accumulate steps m = (Ok tt, with_cache m (take (length steps) ts)) /\
    update_raw final true (with_cache m (take (length steps) ts))
    = (Ok tt, {| self := self (with_cache m []); world := w; trace := trace m ++ tr |}) /\
    replayed (value_function (self m)) (gamma (self m)) zero (reverse ts) tr.
Proof.
  intros Ec Hs. assert (Hr := supported_recognized _ _ Hs).
  destruct (accumulate_run steps m Hr) as (ts & Eacc & Hts).
  rewrite Ec in Eacc. simpl in Eacc.
  destruct (preprocess_recognized (raw_s final) (raw_a final) (raw_r final)
              (raw_s_next final) (with_cache m ts) Hr) as (t & Et & Ea & Er).
  assert (Hall : Forall2 (fun st t => preprocess_in m st = Ok t /\
                            t_A t = [raw_a st] /\ t_R t = [raw_r st])
                         (steps ++ [final]) (ts ++ [t])).
  { apply Forall2_app; [exact Hts|]. constructor; [|constructor].
    split; [|auto].
    transitivity (preprocess_in (with_cache m ts) final).
    - symmetry. apply preprocess_same_world; reflexivity.
    - unfold preprocess_in. now rewrite Et. }
  assert (Htake : take (length steps) (ts ++ [t]) = ts).
  { rewrite (Forall2_length _ _ _ Hts). apply take_app_length. }
  assert (Hacts : concat (map t_A (ts ++ [t])) = map raw_a (steps ++ [final])).
  { clear -Hall. induction Hall as [|st t' l k (_ & E & _) _ IH]; [reflexivity|].
    simpl. rewrite E, IH. reflexivity. }
  edestruct (replay_run (ts ++ [t]) (S (length (ts ++ [t])))
               (with_cache m (ts ++ [t])) (Scalar zero) zero)
    as (tr & w & ER & HR).
  { reflexivity. }
  { clear -Hall. induction Hall as [|st t' l k (_ & E1 & E2) _ IH]; constructor;
      [exists (raw_a st), (raw_r st); auto|exact IH]. }
  { simpl. rewrite Hacts. exact Hs. }
  { now left. }
  { lia. }
  exists (ts ++ [t]), tr, w. rewrite Htake.
  split; [exact Hall|]. split; [exact Eacc|]. split; [|exact HR].
  unfold update_raw. rewrite (update_after_preprocess _ _ _ _ _ _ _ Et).
  simpl experience_cache. exact ER.
Qed.

(** What the trace of a replay says about its [k]-th step. *)
Lemma replayed_lookup (vf : obj) (gam g : T) (ts : list transition) (tr : list event) :
  replayed vf gam g ts tr ->
  forall k t, ts !! k = Some t ->
    exists a g' Yv,
      t_A t = [a] /\
      returns_scan gam g (map reward ts) !! k = Some g' /\
      y_calls tr !! k = Some (t_X t, [a], Arr1 [g']) /\
      update_calls tr !! k = Some (t_X t, Yv) /\
      target_carries vf a g' Yv.
Proof.
  induction 1 as [g|g t0 ts a r Yv tr Ea Er HY HR IH]; intros k t Hk.
  - discriminate Hk.
  - assert (Ey : forall rest, y_calls
             ((if MODELTYPE vf =? 2 then [EvBatchEval (t_X t0)] else [])
              ++ EvUpdate (t_X t0) Yv :: rest) = y_calls rest).
    { intros rest. destruct (MODELTYPE vf =? 2); reflexivity. }
    assert (Eu : forall rest, update_calls
             ((if MODELTYPE vf =? 2 then [EvBatchEval (t_X t0)] else [])
              ++ EvUpdate (t_X t0) Yv :: rest) = (t_X t0, Yv) :: update_calls rest).
    { intros rest. destruct (MODELTYPE vf =? 2); reflexivity. }
    assert (Erw : reward t0 = r) by (unfold reward; now rewrite Er).
    change (y_calls (EvY (t_X t0) [a] (Arr1 [add r (mul gam g)]) :: ?l))
      with ((t_X t0, [a], Arr1 [add r (mul gam g)]) :: y_calls l).
    change (update_calls (EvY (t_X t0) [a] (Arr1 [add r (mul gam g)]) :: ?l))
      with (update_calls l).
    rewrite Ey, Eu. simpl map. rewrite Erw. simpl returns_scan.
    destruct k as [|k].
    + simpl in Hk. injection Hk as <-.
      exists a, (add r (mul gam g)), Yv. repeat split; assumption.
    + simpl in Hk. destruct (IH k t Hk) as (a' & g' & Yv' & K).
      exists a', g', Yv'. exact K.
Qed.

Lemma replayed_update_calls (vf : obj) (gam g : T) (ts : list transition)
    (tr : list event) :
  replayed vf gam g ts tr ->
  map fst (update_calls tr) = map t_X ts /\
  map (fun c => (fst (fst c), snd (fst c))) (y_calls tr)
  = map (fun t => (t_X t, t_A t)) ts.
Proof.
  induction 1 as [g|g t0 ts a r Yv tr Ea Er HY HR [IH1 IH2]]; [split; reflexivity|].
  destruct (MODELTYPE vf =? 2); simpl; fold (update_calls tr); fold (y_calls tr);
    rewrite IH1, IH2, Ea; split; reflexivity.
Qed.

End Replay.

(** ** Whole episodes *)

(** C3. In an episode that starts with an empty cache, on a supported
    approximator: the calls with [done=False] return, leave one cached
    transition each and no trace; the terminal call returns, makes exactly one
    approximator update for each of the [S (length steps)] transitions that
    were appended, and leaves the cache empty.  ([update_done_returns_empty]
    below: the cache is empty whenever a terminal call returns.) *)
Theorem episode_updates_once_per_transition
    {T : Type} `{Numeric T} `{ValueFunctionAPI T}
    (m : machine) (steps : list raw_transition) (final : raw_transition) :
  experience_cache (self m) = [] ->
  supported (value_function (self m)) (map raw_a (steps ++ [final])) ->
  let m1 := snd (accumulate steps m) in
  let m2 := snd (update_raw final true m1) in
  episode steps final m = update_raw final true m1 /\
  fst (accumulate steps m) = Ok tt /\
  length (experience_cache (self m1)) = length steps /\
  trace m1 = trace m /\
  fst (update_raw final true m1) = Ok tt /\
  (exists tr, trace m2 = trace m1 ++ tr /\
              length (update_calls tr) = S (length steps)) /\
  experience_cache (self m2) = [].
Proof.
  intros Ec Hs.
  destruct (episode_run steps final m Ec Hs) as (ts & tr & w & Hts & Eacc & Eup & HR).
  simpl. unfold episode. rewrite (bind_ok _ _ _ _ _ Eacc).
  rewrite Eacc. simpl. rewrite Eup. simpl.
  split; [reflexivity|].
  assert (Lts : length ts = S (length steps)).
  { rewrite <- (Forall2_length _ _ _ Hts), length_app. simpl. lia. }
  split; [reflexivity|]. split; [rewrite length_take; lia|].
  split; [reflexivity|]. split; [reflexivity|]. split; [|reflexivity].
  exists tr. split; [reflexivity|].
  destruct (replayed_update_calls _ _ _ _ _ HR) as [E _].
  rewrite <- (length_map fst), E, length_map, length_reverse. exact Lts.
Qed.

(** C4. In such an episode the terminal call makes its approximator updates
    on the cached transitions in the reverse of the order in which they were
    appended: the transition of the terminal call first, the first transition
    of the episode last. *)
Theorem replay_is_reverse_chronological
    {T : Type} `{Numeric T} `{ValueFunctionAPI T}
    (m : machine) (steps : list raw_transition) (final : raw_transition) :
  experience_cache (self m) = [] ->
  supported (value_function (self m)) (map raw_a (steps ++ [final])) ->
  let m1 := snd (accumulate steps m) in
  let m2 := snd (update_raw final true m1) in
  exists c t tr,
    experience_cache (self m1) = c /\
    Forall2 (fun st t' => preprocess_in m st = Ok t') (steps ++ [final]) (c ++ [t]) /\
    trace m2 = trace m1 ++ tr /\
    map fst (update_calls tr) = map t_X (reverse (c ++ [t])) /\
    map (fun call => (fst (fst call), snd (fst call))) (y_calls tr)
    = map (fun t' => (t_X t', t_A t')) (reverse (c ++ [t])) /\
    head (map fst (update_calls tr)) = Some (t_X t) /\
    last (map fst (update_calls tr)) = head (map t_X (c ++ [t])).
Proof.
  intros Ec Hs.
  destruct (episode_run steps final m Ec Hs) as (ts & tr & w & Hts & Eacc & Eup & HR).
  simpl. rewrite Eacc. simpl. rewrite Eup. simpl.
  assert (Lts : length ts = S (length steps)).
  { rewrite <- (Forall2_length _ _ _ Hts), length_app. simpl. lia. }
  destruct (replayed_update_calls _ _ _ _ _ HR) as [E1 E2].
  destruct ts as [|t0 ts0] using rev_ind; [discriminate Lts|]. clear IHts0.
  rewrite length_app in Lts. simpl in Lts.
  assert (Etake : take (length steps) (ts0 ++ [t0]) = ts0).
  { replace (length steps) with (length ts0) by lia. apply take_app_length. }
  rewrite Etake.
  exists ts0, t0, tr. split; [reflexivity|]. split.
  { eapply Forall2_impl; [exact Hts|]. now intros st t' (E & _). }
  split; [reflexivity|]. split; [exact E1|]. split; [exact E2|].
  rewrite E1, reverse_snoc. split; [reflexivity|].
  change (t_X t0 :: map t_X (reverse ts0)) with (map t_X (t0 :: reverse ts0)).
  rewrite <- reverse_snoc.
  generalize (ts0 ++ [t0]). intros l.
  destruct l as [|x l]; [reflexivity|].
  rewrite reverse_cons, map_app. simpl. apply last_snoc.
Qed.

Lemma toy_Q2_supported {T : Type} (acts : list Z) :
  Forall (valid_index 2) acts -> @supported T (toy_api T) ToyQ2 acts.
Proof.
  intros F. right. split; [reflexivity|]. exists 2. split; [|exact F].
  intros w X. eexists. split; reflexivity.
Qed.

Lemma scenario_actions_valid : Forall (valid_index 2) [0; 1; 0].
Proof. repeat constructor; unfold valid_index; lia. Qed.

Lemma episode_updates_once_per_transition_witness :
  let m := toy_machine ToyQ2 (1 # 2)%Q (0%Q, 0%Q) in
  let m2 := snd (update_raw (scenario_final 3%Q) true
                   (snd (accumulate (scenario_steps 1%Q 2%Q) m))) in
  length (update_calls (trace m2)) = 3%nat /\ experience_cache (self m2) = [].
Proof.
  intros m m2.
  destruct (@episode_updates_once_per_transition Q _ (toy_api Q) m
              (scenario_steps 1%Q 2%Q) (scenario_final 3%Q) eq_refl
              (toy_Q2_supported _ scenario_actions_valid))
    as (_ & _ & _ & E1 & _ & (tr & E2 & L) & Ec).
  split; [|exact Ec].
  unfold m2. rewrite E2, E1. exact L.
Defined.

Lemma replay_is_reverse_chronological_witness :
  let m := toy_machine ToyQ2 (1 # 2)%Q (0%Q, 0%Q) in
  let m1 := snd (accumulate (scenario_steps 1%Q 2%Q) m) in
  let m2 := snd (update_raw (scenario_final 3%Q) true m1) in
  exists c t tr,
    experience_cache (self m1) = c /\
    trace m2 = tr /\
    map fst (update_calls tr) = map t_X (reverse (c ++ [t])) /\
    head (map fst (update_calls tr)) = Some (t_X t).
Proof.
  intros m m1 m2.
  destruct (@replay_is_reverse_chronological Q _ (toy_api Q) m
              (scenario_steps 1%Q 2%Q) (scenario_final 3%Q) eq_refl
              (toy_Q2_supported _ scenario_actions_valid))
    as (c & t & tr & E1 & _ & E2 & E3 & _ & E4 & _).
  exists c, t, tr. repeat split; assumption.
Defined.

(** ** The discounted return *)

Lemma Qpower_nat_succ (gam : Q) (k : nat) :
  (gam ^ Z.of_nat (S k) == gam * gam ^ Z.of_nat k)%Q.
Proof.
  rewrite Nat2Z.inj_succ. unfold Z.succ.
  rewrite Qpower_plus' by lia. rewrite Qpower_1_r. ring.
Qed.

Lemma discounted_from_snoc (gam : Q) (l : list Q) :
  forall (k : nat) (x : Q),
    (discounted_from gam k (l ++ [x])
     == discounted_from gam k l + gam ^ Z.of_nat (k + length l) * x)%Q.
Proof.
  induction l as [|r l IH]; intros k x; simpl.
  - rewrite Nat.add_0_r. ring.
  - rewrite IH. replace (S k + length l)%nat with (k + S (length l))%nat by lia.
    ring.
Qed.

Lemma length_returns_scan {T : Type} `{Numeric T} (gam : T) (rs : list T) :
  forall g, length (returns_scan gam g rs) = length rs.
Proof. induction rs as [|r rs IH]; intros g; simpl; [reflexivity|now rewrite IH]. Qed.

(** The [k]-th return of a replay is the discounted sum of the [S k] rewards
    popped so far, read in chronological order. *)
Lemma returns_scan_discounted (gam : Q) (ps : list Q) :
  forall (g0 : Q) (k : nat) (g : Q),
    returns_scan gam g0 ps !! k = Some g ->
    (g == discounted_from gam 0 (reverse (take (S k) ps))
          + gam ^ Z.of_nat (S k) * g0)%Q.
Proof.
  induction ps as [|p ps IH]; intros g0 k g Hk; [discriminate Hk|].
  destruct k as [|k].
  - simpl in Hk. injection Hk as <-. simpl. ring.
  - simpl in Hk.
    assert (Lk : (k < length ps)%nat).
    { apply lookup_lt_Some in Hk. now rewrite length_returns_scan in Hk. }
    apply IH in Hk. rewrite Hk.
    change (take (S (S k)) (p :: ps)) with (p :: take (S k) ps).
    rewrite reverse_cons, discounted_from_snoc, length_reverse, length_take.
    replace (0 + S k `min` length ps)%nat with (S k) by lia.
    rewrite (Qpower_nat_succ gam (S k)). ring.
Qed.

Lemma map_reverse {A B} (f : A -> B) (l : list A) :
  map f (reverse l) = reverse (map f l).
Proof. unfold reverse. rewrite <- !rev_alt. apply map_rev. Qed.

(** C1. In an episode of [n] transitions that starts with an empty cache, on
    a supported approximator and with exact arithmetic, for every discount
    factor (so for every one in [0, 1]): the terminal call passes to the
    target constructor [Y], for the transition of step [i], the return
    [r_i + gam * r_(i+1) + ... + gam^(n-i) * r_n], as the [(n - i)]-th of its
    calls, and the approximator update of that step gets the label built from
    it. *)
Theorem monte_carlo_return_is_discounted_sum
    `{ValueFunctionAPI Q}
    (m : machine) (steps : list raw_transition) (final : raw_transition) :
  experience_cache (self m) = [] ->
  supported (value_function (self m)) (map raw_a (steps ++ [final])) ->
  let m1 := snd (accumulate steps m) in
  let m2 := snd (update_raw final true m1) in
  let rs := map raw_r (steps ++ [final]) in
  let n := length rs in
  exists tr,
    trace m2 = trace m1 ++ tr /\
    forall (i : nat) (st : raw_transition),
      (1 <= i <= n)%nat ->
      (steps ++ [final]) !! (i - 1)%nat = Some st ->
      exists t g Yv,
        preprocess_in m st = Ok t /\
        y_calls tr !! (n - i)%nat = Some (t_X t, [raw_a st], Arr1 [g]) /\
        update_calls tr !! (n - i)%nat = Some (t_X t, Yv) /\
        target_carries (value_function (self m)) (raw_a st) g Yv /\
        (g == discounted_return (gamma (self m)) rs i)%Q.
Proof.
  intros Ec Hs.
  destruct (episode_run steps final m Ec Hs) as (ts & tr & w & Hts & Eacc & Eup & HR).
  simpl. rewrite Eacc. simpl. rewrite Eup. simpl.
  exists tr. split; [reflexivity|]. intros i st Hi Hst.
  rewrite length_map in Hi.
  assert (Lts : length ts = length (steps ++ [final])).
  { symmetry. exact (Forall2_length _ _ _ Hts). }
  destruct (Forall2_lookup_l _ _ _ _ _ Hts Hst) as (t & Ht & Ep & Ea & Er).
  assert (Hrev : reverse ts !! (length (steps ++ [final]) - i)%nat = Some t).
  { rewrite reverse_lookup by lia. rewrite <- Ht. f_equal. lia. }
  destruct (replayed_lookup _ _ _ _ _ HR _ _ Hrev) as (a & g & Yv & Ea' & Hg & Hy & Hu & Hc).
  assert (a = raw_a st) as -> by congruence.
  exists t, g, Yv. rewrite length_map.
  split; [exact Ep|]. split; [exact Hy|]. split; [exact Hu|]. split; [exact Hc|].
  assert (Erew : map reward ts = map raw_r (steps ++ [final])).
  { clear -Hts. induction Hts as [|st t' l k (_ & _ & E) _ IH]; [reflexivity|].
    simpl. rewrite IH. unfold reward at 1. now rewrite E. }
  apply returns_scan_discounted in Hg.
  rewrite Hg. unfold discounted_return.
  rewrite map_reverse, Erew, take_reverse, reverse_involutive, length_map.
  replace (length (steps ++ [final]) - S (length (steps ++ [final]) - i))%nat
    with (i - 1)%nat by lia.
  simpl. ring.
Qed.

Lemma monte_carlo_return_is_discounted_sum_witness :
  let m := toy_machine ToyQ1 (1 # 2)%Q (0%Q, 0%Q) in
  let m2 := snd (update_raw (scenario_final 3%Q) true
                   (snd (accumulate (scenario_steps 1%Q 2%Q) m))) in
  exists g3 g2 g1,
    returns_used m2 = [Arr1 [g3]; Arr1 [g2]; Arr1 [g1]] /\
    (g3 == 3 /\ g2 == 7 # 2 /\ g1 == 11 # 4)%Q.
Proof.
  intros m m2.
  destruct (@monte_carlo_return_is_discounted_sum (toy_api Q) m
              (scenario_steps 1%Q 2%Q) (scenario_final 3%Q) eq_refl
              (or_introl eq_refl)) as (tr & Etr & K).
  destruct (K 3%nat (scenario_final 3%Q)) as (t3 & g3 & Y3 & _ & H3 & _ & _ & Q3);
    [simpl; lia|reflexivity|].
  destruct (K 2%nat (toy_step 1 1 2%Q 2)) as (t2 & g2 & Y2 & _ & H2 & _ & _ & Q2);
    [simpl; lia|reflexivity|].
  destruct (K 1%nat (toy_step 0 0 1%Q 1)) as (t1 & g1 & Y1 & _ & H1 & _ & _ & Q1);
    [simpl; lia|reflexivity|].
  exists g3, g2, g1. split.
  2:{ split; [rewrite Q3|split; [rewrite Q2|rewrite Q1]]; vm_compute; reflexivity. }
  assert (Et : tr = trace m2) by (symmetry; exact Etr).
  subst tr.
  vm_compute in H1. vm_compute in H2. vm_compute in H3.
  injection H1 as _ <-. injection H2 as _ <-. injection H3 as _ <-.
  vm_compute. reflexivity.
Defined.

(** The scenario of the spec, rewards [1, 2, 3] and [gam = 0.5]: the
    returns, reduced to lowest terms, are 3, 3.5 and 2.75 in call order. *)
Example scenario_returns_exact :
  let m := toy_machine ToyQ1 (1 # 2)%Q (0%Q, 0%Q) in
  let m2 := snd (update_raw (scenario_final 3%Q) true
                   (snd (accumulate (scenario_steps 1%Q 2%Q) m))) in
  map (fun G => match G with
                | Scalar g => Scalar (Qred g)
                | Arr1 gs => Arr1 (map Qred gs)
                end) (returns_used m2)
  = [Arr1 [3%Q]; Arr1 [(7 # 2)%Q]; Arr1 [(11 # 4)%Q]].
Proof. vm_compute. reflexivity. Qed.

(** The same scenario in binary64 arithmetic: no rounding occurs. *)
Example scenario_returns_binary64 :
  let m := toy_machine ToyQ1 0.5%float (0%float, 0%float) in
  let m2 := snd (@update_raw float float_numeric (toy_api float)
                   (scenario_final 3%float) true
                   (snd (@accumulate float float_numeric (toy_api float)
                           (scenario_steps 1%float 2%float) m))) in
  returns_used m2 = [Arr1 [3%float]; Arr1 [3.5%float]; Arr1 [2.75%float]].
Proof. vm_compute. reflexivity. Qed.

(** ** The target of a type-II approximator *)

Section TargetII.
Context {T : Type} `{Numeric T}.

Lemma normalize_index_nonneg (n : nat) (a : Z) :
  0 <= a < Z.of_nat n -> normalize_index n a = Ok (Z.to_nat a).
Proof.
  intros Ha. unfold normalize_index.
  destruct (Z.leb_spec 0 a); [|lia].
  destruct (Z.ltb_spec a (Z.of_nat n)); [reflexivity|lia].
Qed.

Lemma broadcast_to_same (gs : list T) :
  broadcast_to (length gs) (Arr1 gs) = Ok gs.
Proof.
  unfold broadcast_to. destruct gs as [|g [|g' gs]]; try reflexivity.
  now rewrite Nat.eqb_refl.
Qed.

(** The assignment [Ym[idx, A] = vals] for the rows [k, k+1, ...]: it
    succeeds, keeps the shape, leaves the other rows alone and, in row
    [k + i], replaces exactly the entry at index [A[i]] by [vals[i]]. *)
Lemma assign_cells_spec (nA : nat) (A : list Z) :
  forall (vals : list T) (k : nat) (Ym : list (list T)),
    length vals = length A ->
    Forall (fun row => length row = nA) Ym ->
    (k + length A <= length Ym)%nat ->
    Forall (fun a => 0 <= a < Z.of_nat nA) A ->
    exists Ym',
      assign_cells Ym (seq k (length A)) A vals = Ok Ym' /\
      length Ym' = length Ym /\
      Forall (fun row => length row = nA) Ym' /\
      (forall i, (i < k \/ k + length A <= i)%nat -> Ym' !! i = Ym !! i) /\
      (forall i a g, A !! i = Some a -> vals !! i = Some g ->
         exists row, Ym !! (k + i)%nat = Some row /\
                     Ym' !! (k + i)%nat = Some (<[Z.to_nat a := g]> row)).
Proof.
  induction A as [|a A IH]; intros vals k Ym Lv Hrows Hk HA.
  - destruct vals; [|discriminate Lv]. exists Ym. simpl.
    split; [reflexivity|]. split; [reflexivity|]. split; [assumption|].
    split; [reflexivity|]. intros i a g Hi. discriminate Hi.
  - destruct vals as [|g vals]; [discriminate Lv|]. simpl in Lv, Hk.
    apply Forall_cons_1 in HA as [Ha HA].
    destruct (lookup_lt_is_Some_2 Ym k) as [row Hrow]; [lia|].
    assert (Lrow : length row = nA).
    { exact (proj1 (Forall_lookup _ _) Hrows k row Hrow). }
    set (Ym1 := <[k := <[Z.to_nat a := g]> row]> Ym).
    destruct (IH vals (S k) Ym1) as (Ym' & E & L & R & Fr & Cl).
    { lia. }
    { apply Forall_insert; [assumption|]. now rewrite length_insert. }
    { unfold Ym1. rewrite length_insert. lia. }
    { assumption. }
    exists Ym'. split.
    { simpl. unfold set_item. rewrite Hrow. rewrite Lrow.
      rewrite (normalize_index_nonneg _ _ Ha). simpl. exact E. }
    split. { rewrite L. apply length_insert. }
    split. { exact R. }
    split.
    { intros i Hi. simpl in Hi. rewrite Fr by lia. unfold Ym1.
      apply list_lookup_insert_ne. lia. }
    intros i a' g' Hi Hg'. destruct i as [|i].
    + simpl in Hi, Hg'. injection Hi as <-. injection Hg' as <-.
      exists row. rewrite Nat.add_0_r. split; [assumption|].
      rewrite Fr by lia. unfold Ym1. apply list_lookup_insert_eq.
      now apply lookup_lt_Some in Hrow.
    + simpl in Hi, Hg'. destruct (Cl i a' g' Hi Hg') as (row' & H1 & H2).
      exists row'. rewrite Nat.add_succ_r. split; [|exact H2].
      rewrite <- H1. unfold Ym1. symmetry. apply list_lookup_insert_ne. lia.
Qed.

End TargetII.

(** C2. For a type-II approximator whose current prediction for [X] has one
    row of [nA] entries for each of the actions in [A], all of them action
    indices below [nA], and a return batch of the same size: [Y(X, A, G)]
    returns an array of the shape of the prediction whose row [i] holds
    [G[i]] at index [A[i]] and the predicted value at every other index. *)
Theorem Y_type_II_overwrites_taken_action
    {T : Type} `{Numeric T} `{ValueFunctionAPI T}
    (m : machine) (X : Feat) (A : list Z) (gs : list T) (nA : nat) :
  MODELTYPE (value_function (self m)) = 2 ->
  let P := batch_eval (value_function (self m)) (world m) X in
  length P = length A ->
  Forall (fun row => length row = nA) P ->
  length gs = length A ->
  Forall (fun a => 0 <= a < Z.of_nat nA) A ->
  exists Ym,
    fst (Y X A (Arr1 gs) m) = Ok (Y2d Ym) /\
    length Ym = length A /\
    Forall (fun row => length row = nA) Ym /\
    forall i a g prow,
      A !! i = Some a -> gs !! i = Some g -> P !! i = Some prow ->
      exists yrow,
        Ym !! i = Some yrow /\
        yrow !! Z.to_nat a = Some g /\
        forall j, j <> Z.to_nat a -> yrow !! j = prow !! j.
Proof.
  intros E P LP HP Lg HA.
  destruct (assign_cells_spec nA A gs 0 P Lg HP) as (Ym & EY & L & R & _ & Cl);
    [lia|assumption|].
  exists Ym. split.
  { unfold Y, call_batch_eval, bind, emit, get_self, get_world, ret, lift.
    simpl. rewrite E. simpl. fold P.
    unfold fancy_assign, arange. rewrite length_seq, <- Lg, broadcast_to_same.
    simpl. rewrite Lg, EY. reflexivity. }
  split; [congruence|]. split; [assumption|].
  intros i a g prow Hi Hg Hp.
  destruct (Cl i a g Hi Hg) as (row & H1 & H2). simpl in H1, H2.
  assert (row = prow) as -> by congruence.
  exists (<[Z.to_nat a := g]> prow). split; [assumption|]. split.
  - apply list_lookup_insert_eq.
    assert (Lrow : length prow = nA).
    { exact (proj1 (Forall_lookup _ _) HP i prow Hp). }
    assert (Ha := proj1 (Forall_lookup _ _) HA i a Hi). simpl in Ha. lia.
  - intros j Hj. apply list_lookup_insert_ne. congruence.
Qed.

Lemma Y_type_II_overwrites_taken_action_witness :
  fst (@Y Q (toy_api Q) [0] [1] (Arr1 [5%Q]) (toy_machine ToyQ2 (1 # 2)%Q (7%Q, 8%Q)))
  = Ok (Y2d [[7%Q; 5%Q]]).
Proof.
  destruct (@Y_type_II_overwrites_taken_action Q _ (toy_api Q)
              (toy_machine ToyQ2 (1 # 2)%Q (7%Q, 8%Q)) [0] [1] [5%Q] 2%nat)
    as (Ym & E & _);
    [reflexivity | reflexivity | repeat constructor | reflexivity
    | repeat constructor; lia | ].
  rewrite E. vm_compute in E. injection E as <-. reflexivity.
Defined.

(** ** The loop fuel is never used up *)

Section Fuel.
Context {T : Type} `{Numeric T} `{ValueFunctionAPI T}.

Lemma cn_ret {A} (a : A) : cache_neutral (ret a).
Proof. intros m. split; [discriminate|reflexivity]. Qed.

Lemma cn_lift {A} (r : result A) :
  r <> Raise LoopFuelExhausted -> cache_neutral (lift r).
Proof. intros N m. split; [exact N|reflexivity]. Qed.

Lemma cn_raise {A} (e : exn) :
  e <> LoopFuelExhausted -> cache_neutral (@raise _ _ A e).
Proof. intros N m. split; [simpl; congruence|reflexivity]. Qed.

Lemma cn_get_self : cache_neutral get_self.
Proof. intros m. split; [discriminate|reflexivity]. Qed.

Lemma cn_get_world : cache_neutral get_world.
Proof. intros m. split; [discriminate|reflexivity]. Qed.

Lemma cn_set_world (w : World) : cache_neutral (set_world w).
Proof. intros m. split; [discriminate|reflexivity]. Qed.

Lemma cn_emit (ev : event) : cache_neutral (emit ev).
Proof. intros m. split; [discriminate|reflexivity]. Qed.

Lemma cn_bind {A B} (c : M A) (k : A -> M B) :
  cache_neutral c -> (forall a, cache_neutral (k a)) -> cache_neutral (bind c k).
Proof.
  intros Hc Hk m. unfold bind. destruct (Hc m) as [N E].
  destruct (c m) as [[a|e] m1]; simpl in *.
  - destruct (Hk a m1) as [N' E']. split; [exact N'|congruence].
  - split; [|assumption]. intros Q. injection Q as ->. now apply N.
Qed.

Lemma cn_if {A} (b : bool) (c1 c2 : M A) :
  cache_neutral c1 -> cache_neutral c2 -> cache_neutral (if b then c1 else c2).
Proof. now destruct b. Qed.

Lemma rbind_no_timeout {A B} (r : result A) (k : A -> result B) :
  r <> Raise LoopFuelExhausted ->
  (forall a, k a <> Raise LoopFuelExhausted) ->
  rbind r k <> Raise LoopFuelExhausted.
Proof.
  intros N Hk. destruct r as [a|e]; simpl; [apply Hk|].
  intros Q. injection Q as ->. now apply N.
Qed.

Lemma np_add_no_timeout (R : list T) (G : ndval T) :
  np_add R G <> Raise LoopFuelExhausted.
Proof.
  unfold np_add. destruct G as [g|gs]; [discriminate|].
  destruct (length R =? length gs)%nat; [discriminate|].
  destruct R as [|r [|r' R]], gs as [|g [|g' gs]]; discriminate.
Qed.

Lemma set_item_no_timeout (Ym : list (list T)) (i : nat) (a : Z) (g : T) :
  set_item Ym i a g <> Raise LoopFuelExhausted.
Proof.
  unfold set_item. destruct (Ym !! i) as [row|]; [|discriminate].
  apply rbind_no_timeout; [|discriminate].
  unfold normalize_index.
  destruct (_ && _); [discriminate|]. destruct (_ && _); discriminate.
Qed.

Lemma assign_cells_no_timeout (idx : list nat) :
  forall (Ym : list (list T)) (A : list Z) (vals : list T),
    assign_cells Ym idx A vals <> Raise LoopFuelExhausted.
Proof.
  induction idx as [|i idx IH]; intros Ym A vals; [discriminate|].
  destruct A as [|a A]; [discriminate|]. destruct vals as [|g vals]; [discriminate|].
  simpl. apply rbind_no_timeout; [apply set_item_no_timeout|intros Ym'; apply IH].
Qed.

Lemma fancy_assign_no_timeout (Ym : list (list T)) (idx : list nat) (A : list Z)
    (G : ndval T) :
  fancy_assign Ym idx A G <> Raise LoopFuelExhausted.
Proof.
  unfold fancy_assign. apply rbind_no_timeout.
  - unfold broadcast_to. destruct G as [g|[|g [|g' gs]]]; try discriminate;
      destruct (_ =? _)%nat; discriminate.
  - intros vals. apply assign_cells_no_timeout.
Qed.

Lemma cn_Y (X : Feat) (A : list Z) (G : ndval T) : cache_neutral (Y X A G).
Proof.
  unfold Y, call_batch_eval.
  apply cn_bind; [apply cn_emit|intros _].
  apply cn_bind; [apply cn_get_self|intros me].
  apply cn_if; [apply cn_ret|].
  apply cn_if; [|apply cn_raise; discriminate].
  apply cn_bind.
  { apply cn_bind; [apply cn_emit|intros _].
    apply cn_bind; [apply cn_get_self|intros me'].
    apply cn_bind; [apply cn_get_world|intros w]. apply cn_ret. }
  intros Ym. apply cn_bind; [|intros Ym'; apply cn_ret].
  apply cn_lift, fancy_assign_no_timeout.
Qed.

Lemma cn_call_update (X : Feat) (Yv : label T) : cache_neutral (call_update X Yv).
Proof.
  unfold call_update.
  apply cn_bind; [apply cn_emit|intros _].
  apply cn_bind; [apply cn_get_self|intros me].
  apply cn_bind; [apply cn_get_world|intros w]. apply cn_set_world.
Qed.

Lemma cn_preprocess s a r s_next : cache_neutral (preprocess_transition s a r s_next).
Proof.
  unfold preprocess_transition.
  apply cn_bind; [apply cn_get_self|intros me].
  apply cn_bind; [apply cn_get_world|intros w].
  apply cn_if; [apply cn_ret|].
  apply cn_if; [apply cn_ret|apply cn_raise; discriminate].
Qed.

(** With more fuel than cached transitions the loop never stops for lack of
    fuel, and when it returns the cache is empty. *)
Lemma replay_terminates (fuel : nat) :
  forall (G : ndval T) (m : machine),
    (length (experience_cache (self m)) < fuel)%nat ->
    fst (replay fuel G m) <> Raise LoopFuelExhausted /\
    (fst (replay fuel G m) = Ok tt ->
     experience_cache (self (snd (replay fuel G m))) = []).
Proof.
  induction fuel as [|fuel IH]; intros G m Hf; [lia|].
  destruct (replay (S fuel) G m) as [res m'] eqn:E. simpl fst. simpl snd.
  simpl replay in E. rewrite (bind_ok get_self _ m m (self m) eq_refl) in E.
  destruct (experience_cache (self m)) as [|t c _] eqn:Ec using rev_ind.
  { simpl in E. injection E as <- <-. split; [discriminate|]. intros _. exact Ec. }
  rewrite cache_bool_snoc in E.
  rewrite (bind_ok pop _ m _ t (pop_run m c t Ec)) in E.
  rewrite length_app in Hf. simpl in Hf.
  unfold bind at 1, lift at 1 in E.
  destruct (np_add (t_R t) (np_scale (gamma (self m)) G)) as [G'|e] eqn:EG.
  2:{ injection E as <- <-. split; [|discriminate].
      intros Q. injection Q as ->. exact (np_add_no_timeout _ _ EG). }
  unfold bind at 1 in E.
  destruct (cn_Y (t_X t) (t_A t) G' (with_cache m c)) as [NY EY].
  destruct (Y (t_X t) (t_A t) G' (with_cache m c)) as [[Yv|e] m2]; simpl in NY, EY.
  2:{ injection E as <- <-. split; [|discriminate].
      intros Q. injection Q as ->. now apply NY. }
  rewrite (bind_ok _ _ _ _ _ (call_update_run _ _ _)) in E.
  edestruct (IH G') as [N1 N2]; [|rewrite E in N1, N2; split; [exact N1|exact N2]].
  simpl. rewrite EY. lia.
Qed.

(** [update] never stops for lack of fuel: the embedding of the [while] loop
    loses no behaviour of the code. *)
Lemma update_never_out_of_fuel s a r s_next done (m : machine) :
  fst (update s a r s_next done m) <> Raise LoopFuelExhausted.
Proof.
  assert (F := preprocess_frame s a r s_next m).
  destruct (cn_preprocess s a r s_next m) as [N _].
  destruct (preprocess_transition s a r s_next m) as [[t|e] m1] eqn:E;
    simpl in F, N; subst m1.
  - rewrite (update_after_preprocess _ _ _ _ _ _ _ E).
    destruct done; [|discriminate].
    apply replay_terminates. simpl. lia.
  - unfold update, bind at 1. rewrite E. simpl.
    intros Q. injection Q as ->. now apply N.
Qed.

(** Whenever a terminal call returns, the cache is empty. *)
Lemma update_done_returns_empty s a r s_next (m : machine) :
  fst (update s a r s_next true m) = Ok tt ->
  experience_cache (self (snd (update s a r s_next true m))) = [].
Proof.
  assert (F := preprocess_frame s a r s_next m).
  destruct (preprocess_transition s a r s_next m) as [[t|e] m1] eqn:E;
    simpl in F; subst m1.
  - rewrite (update_after_preprocess _ _ _ _ _ _ _ E).
    apply replay_terminates. simpl. lia.
  - unfold update, bind at 1. rewrite E. discriminate.
Qed.

End Fuel.

(** * Further properties of the two modules *)

(** ** [preprocess_transition] *)

(** X1. [preprocess_transition] has no side effect, whether it returns or
    raises; it returns exactly when the model type is 1 or 2; and what it
    returns holds the action and the reward as batches of one, the features
    of [(s, a)] for type I and of [s] alone for type II, and the same
    [preprocess_typeII(s_next)] for both types. *)
Theorem preprocess_transition_is_pure
    {T : Type} `{Numeric T} `{ValueFunctionAPI T}
    (m : machine) (s : Obs) (a : Z) (r : T) (s_next : Obs) :
  let vf := value_function (self m) in
  let out := preprocess_transition s a r s_next m in
  snd out = m /\
  (recognized vf <-> exists t, fst out = Ok t) /\
  forall t, fst out = Ok t ->
    t_A t = [a] /\ t_R t = [r] /\
    t_X_next t = preprocess_typeII vf (world m) s_next /\
    t_X t = if MODELTYPE vf =? 1 then X_state_action vf (world m) s a
            else X_state vf (world m) s.
Proof.
  simpl. split; [apply preprocess_frame|]. split.
  - split.
    + intros R. destruct (preprocess_recognized s a r s_next m R) as (t & E & _).
      exists t. now rewrite E.
    + intros (t & E).
      destruct (Z.eq_dec (MODELTYPE (value_function (self m))) 1) as [E1|N1];
        [now left|].
      destruct (Z.eq_dec (MODELTYPE (value_function (self m))) 2) as [E2|N2];
        [now right|].
      rewrite preprocess_unrecognized in E; [discriminate E|].
      intros [R|R]; contradiction.
  - intros t. unfold preprocess_transition, bind, get_self, get_world, ret, raise.
    simpl.
    destruct (MODELTYPE (value_function (self m)) =? 1).
    + simpl. intros E. injection E as <-. repeat split.
    + destruct (MODELTYPE (value_function (self m)) =? 2); simpl; intros E;
        [injection E as <-; repeat split|discriminate E].
Qed.

Lemma preprocess_transition_is_pure_witness :
  fst (@preprocess_transition Q (toy_api Q) 4 1 (5 # 2)%Q 6
         (toy_machine ToyQ2 (1 # 2)%Q (0%Q, 0%Q)))
  = Ok (@Build_transition Q (toy_api Q) [4] [1] [(5 # 2)%Q] [6]).
Proof.
  destruct (@preprocess_transition_is_pure Q _ (toy_api Q)
              (toy_machine ToyQ2 (1 # 2)%Q (0%Q, 0%Q)) 4 1 (5 # 2)%Q 6)
    as (_ & [K _] & L).
  destruct K as (t & E); [right; reflexivity|].
  rewrite E. f_equal.
  destruct (L t E) as (EA & ER & EN & EX).
  destruct t as [tx ta tr tn]. simpl in *. now subst.
Defined.

(** ** [Y] *)


(** ** [BasePolicyAlgorithm.__init__] *)



Section TargetIIEdges.
Context {T : Type} `{Numeric T} `{ValueFunctionAPI T}.

Lemma Y_type_II_run (m : machine) (X : Feat) (A : list Z) (G : ndval T) :
  MODELTYPE (value_function (self m)) = 2 ->
  fst (Y X A G m)
  = rbind (fancy_assign (batch_eval (value_function (self m)) (world m) X)
             (arange (length A)) A G)
          (fun Ym => Ok (Y2d Ym)).
Proof.
  intros E. unfold Y, call_batch_eval, bind, emit, get_self, get_world, ret, lift.
  simpl. rewrite E. simpl.
  destruct (fancy_assign _ _ _ _); reflexivity.
Qed.

Lemma normalize_index_mod (n : nat) (a : Z) :
  valid_index (Z.of_nat n) a ->
  normalize_index n a = Ok (Z.to_nat (a mod Z.of_nat n)) /\
  (Z.to_nat (a mod Z.of_nat n) < n)%nat.
Proof.
  unfold valid_index, normalize_index. intros Ha.
  assert (Hm : 0 <= a mod Z.of_nat n < Z.of_nat n) by (apply Z.mod_pos_bound; lia).
  split; [|lia].
  destruct (Z.leb_spec 0 a); simpl.
  - destruct (Z.ltb_spec a (Z.of_nat n)); [|lia]. now rewrite Z.mod_small by lia.
  - destruct (Z.leb_spec (- Z.of_nat n) a); [|lia].
    destruct (Z.ltb_spec a 0); [|lia]. simpl.
    rewrite <- (Z.mod_small (a + Z.of_nat n) (Z.of_nat n)) by lia.
    replace (a + Z.of_nat n) with (a + 1 * Z.of_nat n) by lia.
    now rewrite Z_mod_plus_full.
Qed.

Lemma normalize_index_invalid (n : nat) (a : Z) :
  ~ valid_index (Z.of_nat n) a ->
  normalize_index n a = Raise (IndexError "index is out of bounds").
Proof.
  unfold valid_index, normalize_index. intros Ha.
  destruct (Z.leb_spec 0 a); simpl.
  - destruct (Z.ltb_spec a (Z.of_nat n)); [lia|].
    destruct (Z.leb_spec (- Z.of_nat n) a); simpl; [|reflexivity].
    destruct (Z.ltb_spec a 0); [lia|reflexivity].
  - destruct (Z.leb_spec (- Z.of_nat n) a); simpl; [|reflexivity].
    destruct (Z.ltb_spec a 0); [lia|reflexivity].
Qed.

(** [assign_cells_spec] for indices that may count from the end. *)
Lemma assign_cells_wrap (nA : nat) (A : list Z) :
  forall (vals : list T) (k : nat) (Ym : list (list T)),
    length vals = length A ->
    Forall (fun row => length row = nA) Ym ->
    (k + length A <= length Ym)%nat ->
    Forall (valid_index (Z.of_nat nA)) A ->
    exists Ym',
      assign_cells Ym (seq k (length A)) A vals = Ok Ym' /\
      length Ym' = length Ym /\
      Forall (fun row => length row = nA) Ym' /\
      (forall i, (i < k \/ k + length A <= i)%nat -> Ym' !! i = Ym !! i) /\
      (forall i a g, A !! i = Some a -> vals !! i = Some g ->
         exists row, Ym !! (k + i)%nat = Some row /\
                     Ym' !! (k + i)%nat
                     = Some (<[Z.to_nat (a mod Z.of_nat nA) := g]> row)).
Proof.
  induction A as [|a A IH]; intros vals k Ym Lv Hrows Hk HA.
  - destruct vals; [|discriminate Lv]. exists Ym. simpl.
    split; [reflexivity|]. split; [reflexivity|]. split; [assumption|].
    split; [reflexivity|]. intros i a g Hi. discriminate Hi.
  - destruct vals as [|g vals]; [discriminate Lv|]. simpl in Lv, Hk.
    apply Forall_cons_1 in HA as [Ha HA].
    destruct (lookup_lt_is_Some_2 Ym k) as [row Hrow]; [lia|].
    assert (Lrow : length row = nA).
    { exact (proj1 (Forall_lookup _ _) Hrows k row Hrow). }
    destruct (normalize_index_mod _ _ Ha) as [En Ln].
    set (Ym1 := <[k := <[Z.to_nat (a mod Z.of_nat nA) := g]> row]> Ym).
    destruct (IH vals (S k) Ym1) as (Ym' & E & L & R & Fr & Cl).
    { lia. }
    { apply Forall_insert; [assumption|]. now rewrite length_insert. }
    { unfold Ym1. rewrite length_insert. lia. }
    { assumption. }
    exists Ym'. split.
    { simpl. unfold set_item. rewrite Hrow. rewrite Lrow, En. simpl. exact E. }
    split. { rewrite L. apply length_insert. }
    split. { exact R. }
    split.
    { intros i Hi. simpl in Hi. rewrite Fr by lia. unfold Ym1.
      apply list_lookup_insert_ne. lia. }
    intros i a' g' Hi Hg'. destruct i as [|i].
    + simpl in Hi, Hg'. injection Hi as <-. injection Hg' as <-.
      exists row. rewrite Nat.add_0_r. split; [assumption|].
      rewrite Fr by lia. unfold Ym1. apply list_lookup_insert_eq.
      now apply lookup_lt_Some in Hrow.
    + simpl in Hi, Hg'. destruct (Cl i a' g' Hi Hg') as (row' & H1' & H2').
      exists row'. rewrite Nat.add_succ_r. split; [|exact H2'].
      rewrite <- H1'. unfold Ym1. symmetry. apply list_lookup_insert_ne. lia.
Qed.

(** One index out of bounds makes the whole assignment fail. *)
Lemma assign_cells_out_of_bounds (nA : nat) (A : list Z) :
  forall (vals : list T) (k : nat) (Ym : list (list T)),
    length vals = length A ->
    Forall (fun row => length row = nA) Ym ->
    (k + length A <= length Ym)%nat ->
    Exists (fun a => ~ valid_index (Z.of_nat nA) a) A ->
    assign_cells Ym (seq k (length A)) A vals
    = Raise (IndexError "index is out of bounds").
Proof.
  induction A as [|a A IH]; intros vals k Ym Lv Hrows Hk HA.
  - inversion HA.
  - destruct vals as [|g vals]; [discriminate Lv|]. simpl in Lv, Hk.
    destruct (lookup_lt_is_Some_2 Ym k) as [row Hrow]; [lia|].
    assert (Lrow : length row = nA).
    { exact (proj1 (Forall_lookup _ _) Hrows k row Hrow). }
    simpl. unfold set_item. rewrite Hrow, Lrow.
    assert (D : valid_index (Z.of_nat nA) a \/ ~ valid_index (Z.of_nat nA) a).
    { unfold valid_index. lia. }
    destruct D as [Va|Na].
    + destruct (normalize_index_mod _ _ Va) as [En _]. rewrite En. simpl.
      apply IH.
      * lia.
      * apply Forall_insert; [assumption|]. now rewrite length_insert.
      * rewrite length_insert. lia.
      * apply Exists_cons in HA as [Ha|HA]; [contradiction|assumption].
    + rewrite (normalize_index_invalid _ _ Na). reflexivity.
Qed.

End TargetIIEdges.

(** X4. For a type-II approximator an action may also be given as a negative
    index down to [-nA]: [Y] then counts from the end of the prediction row,
    so that row [i] of the label holds [G[i]] at index [A[i] mod nA] and the
    prediction everywhere else. *)
Theorem Y_type_II_negative_action_wraps
    {T : Type} `{Numeric T} `{ValueFunctionAPI T}
    (m : machine) (X : Feat) (A : list Z) (gs : list T) (nA : nat) :
  MODELTYPE (value_function (self m)) = 2 ->
  let P := batch_eval (value_function (self m)) (world m) X in
  length P = length A ->
  Forall (fun row => length row = nA) P ->
  length gs = length A ->
  Forall (fun a => - Z.of_nat nA <= a < Z.of_nat nA) A ->
  exists Ym,
    fst (Y X A (Arr1 gs) m) = Ok (Y2d Ym) /\
    length Ym = length A /\
    forall i a g prow,
      A !! i = Some a -> gs !! i = Some g -> P !! i = Some prow ->
      exists yrow,
        Ym !! i = Some yrow /\
        yrow !! Z.to_nat (a mod Z.of_nat nA) = Some g /\
        forall j, j <> Z.to_nat (a mod Z.of_nat nA) -> yrow !! j = prow !! j.
Proof.
  intros E P LP HP Lg HA.
  destruct (assign_cells_wrap nA A gs 0 P Lg HP) as (Ym & EY & L & R & _ & Cl);
    [lia|exact HA|].
  exists Ym. split.
  { rewrite (Y_type_II_run _ _ _ _ E). fold P.
    unfold fancy_assign, arange. rewrite length_seq, <- Lg, broadcast_to_same.
    simpl. rewrite Lg, EY. reflexivity. }
  split; [congruence|].
  intros i a g prow Hi Hg Hp.
  destruct (Cl i a g Hi Hg) as (row & H1' & H2'). simpl in H1', H2'.
  assert (row = prow) as -> by congruence.
  exists (<[Z.to_nat (a mod Z.of_nat nA) := g]> prow).
  split; [assumption|]. split.
  - apply list_lookup_insert_eq.
    assert (Lrow : length prow = nA).
    { exact (proj1 (Forall_lookup _ _) HP i prow Hp). }
    assert (Ha := proj1 (Forall_lookup _ _) HA i a Hi). simpl in Ha.
    destruct (normalize_index_mod nA a Ha) as [_ Lt]. lia.
  - intros j Hj. apply list_lookup_insert_ne. congruence.
Qed.

Lemma Y_type_II_negative_action_wraps_witness :
  fst (@Y Q (toy_api Q) [0] [-1] (Arr1 [5%Q]) (toy_machine ToyQ2 (1 # 2)%Q (7%Q, 8%Q)))
  = Ok (Y2d [[7%Q; 5%Q]]).
Proof.
  destruct (@Y_type_II_negative_action_wraps Q _ (toy_api Q)
              (toy_machine ToyQ2 (1 # 2)%Q (7%Q, 8%Q)) [0] [-1] [5%Q] 2%nat)
    as (Ym & E & _);
    [reflexivity | reflexivity | repeat constructor | reflexivity
    | repeat constructor; lia | ].
  rewrite E. vm_compute in E. injection E as <-. reflexivity.
Defined.



(** X6. A return that is a scalar or an array of one entry is broadcast by
    the type-II [Y]: every row [i] of the label is the predicted row with the
    one return written at index [A[i]]. *)
Theorem Y_type_II_broadcasts_single_return
    {T : Type} `{Numeric T} `{ValueFunctionAPI T}
    (m : machine) (X : Feat) (A : list Z) (G : ndval T) (g : T) (nA : nat) :
  MODELTYPE (value_function (self m)) = 2 ->
  let P := batch_eval (value_function (self m)) (world m) X in
  length P = length A ->
  Forall (fun row => length row = nA) P ->
  G = Scalar g \/ G = Arr1 [g] ->
  Forall (fun a => 0 <= a < Z.of_nat nA) A ->
  exists Ym,
    fst (Y X A G m) = Ok (Y2d Ym) /\
    length Ym = length A /\
    forall i a prow,
      A !! i = Some a -> P !! i = Some prow ->
      Ym !! i = Some (<[Z.to_nat a := g]> prow).
Proof.
  intros E P LP HP HG HA.
  destruct (assign_cells_spec nA A (replicate (length A) g) 0 P)
    as (Ym & EY & L & R & _ & Cl);
    [apply length_replicate|exact HP|lia|exact HA|].
  exists Ym. split.
  { rewrite (Y_type_II_run _ _ _ _ E). fold P.
    unfold fancy_assign, arange. rewrite length_seq.
    assert (EB : broadcast_to (length A) G = Ok (replicate (length A) g)).
    { destruct HG as [-> | ->]; reflexivity. }
    rewrite EB. simpl. rewrite EY. reflexivity. }
  split; [congruence|].
  intros i a prow Hi Hp.
  destruct (Cl i a g Hi) as (row & H1' & H2').
  { apply lookup_replicate_2. now apply lookup_lt_Some in Hi. }
  simpl in H1', H2'. congruence.
Qed.

Lemma Y_type_II_broadcasts_single_return_witness :
  fst (@Y Q (toy_api Q) [0] [0] (Scalar 5%Q) (toy_machine ToyQ2 (1 # 2)%Q (7%Q, 8%Q)))
  = Ok (Y2d [[5%Q; 8%Q]]).
Proof.
  destruct (@Y_type_II_broadcasts_single_return Q _ (toy_api Q)
              (toy_machine ToyQ2 (1 # 2)%Q (7%Q, 8%Q)) [0] [0] (Scalar 5%Q) 5%Q 2%nat)
    as (Ym & E & _);
    [reflexivity | reflexivity | repeat constructor | left; reflexivity
    | repeat constructor; lia | ].
  rewrite E. vm_compute in E. injection E as <-. reflexivity.
Defined.

(** X7. A return batch whose length is neither that of the action batch nor
    one cannot be broadcast: the type-II [Y] raises [ValueError], also when
    prediction and actions are well-formed. *)
Theorem Y_type_II_return_shape_mismatch
    {T : Type} `{Numeric T} `{ValueFunctionAPI T}
    (m : machine) (X : Feat) (A : list Z) (gs : list T) (nA : nat) :
  MODELTYPE (value_function (self m)) = 2 ->
  let P := batch_eval (value_function (self m)) (world m) X in
  length P = length A ->
  Forall (fun row => length row = nA) P ->
  Forall (fun a => 0 <= a < Z.of_nat nA) A ->
  length gs <> length A ->
  length gs <> 1%nat ->
  fst (Y X A (Arr1 gs) m) = Raise (ValueError "shape mismatch").
Proof.
  intros E P LP HP HA N1 N2.
  rewrite (Y_type_II_run _ _ _ _ E). fold P.
  unfold fancy_assign, arange. rewrite length_seq.
  assert (EB : broadcast_to (length A) (Arr1 gs) = Raise (ValueError "shape mismatch")).
  { unfold broadcast_to. destruct gs as [|g [|g' gs]].
    - destruct (Nat.eqb_spec (length (@nil T)) (length A)); [contradiction|reflexivity].
    - contradiction N2. reflexivity.
    - destruct (Nat.eqb_spec (length (g :: g' :: gs)) (length A));
        [contradiction|reflexivity]. }
  rewrite EB. reflexivity.
Qed.

Lemma Y_type_II_return_shape_mismatch_witness :
  fst (@Y Q (toy_api Q) [0] [1] (Arr1 [5%Q; 6%Q]) (toy_machine ToyQ2 (1 # 2)%Q (7%Q, 8%Q)))
  = Raise (ValueError "shape mismatch").
Proof.
  apply (@Y_type_II_return_shape_mismatch Q _ (toy_api Q)
           (toy_machine ToyQ2 (1 # 2)%Q (7%Q, 8%Q)) [0] [1] [5%Q; 6%Q] 2%nat);
    [reflexivity | reflexivity | repeat constructor | repeat constructor; lia
    | simpl; lia | simpl; lia].
Defined.

(** ** More about the replay *)

Section ReplayMore.
Context {T : Type} `{Numeric T} `{ValueFunctionAPI T}.

Lemma replayed_returns (vf : obj) (gam g : T) (ts : list transition)
    (tr : list event) :
  replayed vf gam g ts tr ->
  map snd (y_calls tr)
  = map (fun g' => Arr1 [g']) (returns_scan gam g (map reward ts)).
Proof.
  induction 1 as [g|g t0 ts a r Yv tr Ea Er HY HR IH]; [reflexivity|].
  assert (Erw : reward t0 = r) by (unfold reward; now rewrite Er).
  simpl map. rewrite Erw. simpl returns_scan. simpl map. rewrite <- IH.
  destruct (MODELTYPE vf =? 2); reflexivity.
Qed.

Lemma replayed_batch_eval (vf : obj) (gam g : T) (ts : list transition)
    (tr : list event) :
  replayed vf gam g ts tr ->
  batch_eval_calls tr = if MODELTYPE vf =? 2 then map t_X ts else [].
Proof.
  induction 1 as [g|g t0 ts a r Yv tr Ea Er HY HR IH].
  - now destruct (MODELTYPE vf =? 2).
  - destruct (MODELTYPE vf =? 2); simpl; fold (batch_eval_calls tr);
      rewrite IH; reflexivity.
Qed.

Lemma replayed_length_updates (vf : obj) (gam g : T) (ts : list transition)
    (tr : list event) :
  replayed vf gam g ts tr -> length (update_calls tr) = length ts.
Proof.
  intros HR. destruct (replayed_update_calls _ _ _ _ _ HR) as [E _].
  now rewrite <- (length_map fst), E, length_map.
Qed.

(** The loop on a cache [c1 ++ c2] whose newer part [c2] is replayable: it
    gets as far as the cache [c1]. *)
Lemma replay_suffix (c2 : ExperienceCache) :
  forall (fuel : nat) (m : machine) (G : ndval T) (g : T) (c1 : ExperienceCache),
    experience_cache (self m) = c1 ++ c2 ->
    Forall unit_batch c2 ->
    supported (value_function (self m)) (concat (map t_A c2)) ->
    carries G g ->
    (length c2 <= fuel)%nat ->
    exists tr w G' g',
      replay fuel G m
      = replay (fuel - length c2) G'
          {| self := self (with_cache m c1); world := w; trace := trace m ++ tr |} /\
      replayed (value_function (self m)) (gamma (self m)) g (reverse c2) tr /\
      carries G' g'.
Proof.
  induction c2 as [|t c IH] using rev_ind; intros fuel m G g c1 Ec Hu Hs Hg Hf.
  - exists [], (world m), G, g. split; [|split; [constructor|exact Hg]].
    simpl. rewrite Nat.sub_0_r, app_nil_r. rewrite app_nil_r in Ec.
    destruct m as [[? ? ? ?] ? ?]. simpl in *. now subst.
  - rewrite length_app in Hf. simpl in Hf.
    destruct fuel as [|fuel]; [lia|].
    apply Forall_app in Hu as [Hu Ht]. apply Forall_cons_1 in Ht as [Ht _].
    destruct Ht as (a & r & Ea & Er).
    assert (Hs1 : supported (value_function (self m)) [a]).
    { eapply supported_incl; [|exact Hs]. intros x Hx.
      rewrite map_app, concat_app. simpl. rewrite Ea. simpl.
      apply elem_of_app. now right. }
    assert (Hs2 : supported (value_function (self m)) (concat (map t_A c))).
    { eapply supported_incl; [|exact Hs]. intros x Hx.
      rewrite map_app, concat_app. apply elem_of_app. now left. }
    rewrite app_assoc in Ec.
    simpl replay.
    rewrite (bind_ok get_self _ m m (self m) eq_refl).
    rewrite Ec, cache_bool_snoc.
    rewrite (bind_ok pop _ m _ t (pop_run m (c1 ++ c) t Ec)).
    rewrite Er, (np_step _ r g G Hg).
    rewrite (bind_ok (lift _) _ (with_cache m (c1 ++ c)) (with_cache m (c1 ++ c)) _ eq_refl).
    rewrite Ea.
    destruct (Y_run (with_cache m (c1 ++ c)) (t_X t) a (add r (mul (gamma (self m)) g)) Hs1)
      as (Yv & EY & HY).
    rewrite (bind_ok _ _ _ _ _ EY).
    rewrite (bind_ok _ _ _ _ _ (call_update_run _ _ _)).
    edestruct (IH fuel) as (tr & w & G' & g' & ER & HR & HG');
      [| exact Hu | | right; reflexivity | | ]; cycle -1.
    + rewrite ER. simpl. eexists _, w, G', g'. split; [|split; [|exact HG']].
      * rewrite <- !app_assoc. simpl.
        replace (fuel - length c)%nat with (S fuel - length (c ++ [t]))%nat
          by (rewrite length_app; simpl; lia).
        reflexivity.
      * rewrite reverse_snoc. econstructor; eauto.
    + reflexivity.
    + exact Hs2.
    + lia.
Qed.

(** Whatever the loop does, it only removes entries from the end of the
    cache. *)
Lemma replay_cache_prefix (fuel : nat) :
  forall (G : ndval T) (m : machine),
    experience_cache (self (snd (replay fuel G m)))
      `prefix_of` experience_cache (self m).
Proof.
  induction fuel as [|fuel IH]; intros G m; [reflexivity|].
  destruct (replay (S fuel) G m) as [res m'] eqn:E. simpl snd.
  simpl replay in E. rewrite (bind_ok get_self _ m m (self m) eq_refl) in E.
  destruct (experience_cache (self m)) as [|t c _] eqn:Ec using rev_ind.
  { simpl in E. injection E as <- <-. now rewrite Ec. }
  rewrite cache_bool_snoc in E.
  rewrite (bind_ok pop _ m _ t (pop_run m c t Ec)) in E.
  unfold bind at 1, lift at 1 in E.
  destruct (np_add (t_R t) (np_scale (gamma (self m)) G)) as [G'|e].
  2:{ injection E as <- <-. simpl. now apply prefix_app_r. }
  unfold bind at 1 in E.
  destruct (cn_Y (t_X t) (t_A t) G' (with_cache m c)) as [_ EY].
  destruct (Y (t_X t) (t_A t) G' (with_cache m c)) as [[Yv|e] m2]; simpl in EY.
  2:{ injection E as <- <-. rewrite EY. now apply prefix_app_r. }
  rewrite (bind_ok _ _ _ _ _ (call_update_run _ _ _)) in E.
  specialize (IH G' {| self := self m2;
                       world := vf_update (value_function (self m2)) (world m2) (t_X t) Yv;
                       trace := trace m2 ++ [EvUpdate (t_X t) Yv] |}).
  rewrite E in IH. simpl in IH. rewrite EY in IH. now apply prefix_app_r.
Qed.

End ReplayMore.

Lemma update_preprocess_raises_aux {T : Type} `{Numeric T} `{ValueFunctionAPI T}
    s a r s_next done (m : machine) (e : exn) :
  fst (preprocess_transition s a r s_next m) = Raise e ->
  update s a r s_next done m = (Raise e, m).
Proof.
  intros E. assert (F := preprocess_frame s a r s_next m).
  unfold update, bind at 1.
  destruct (preprocess_transition s a r s_next m) as [[t|e'] m1];
    simpl in *; congruence.
Qed.

Lemma bind_raise {T : Type} `{ValueFunctionAPI T} {A B} (c : M A) (k : A -> M B)
    (m m' : machine) (e : exn) :
  c m = (Raise e, m') -> bind c k m = (Raise e, m').
Proof. intros E. unfold bind. now rewrite E. Qed.

(** [Y] on a batch of one whose action is no index of the prediction row. *)
Lemma Y_run_invalid {T : Type} `{Numeric T} `{ValueFunctionAPI T}
    (m : machine) (X : Feat) (a : Z) (g : T) (nA : Z) :
  MODELTYPE (value_function (self m)) = 2 ->
  one_row_predictions (value_function (self m)) nA ->
  ~ valid_index nA a ->
  Y X [a] (Arr1 [g]) m
  = (Raise (IndexError "index is out of bounds"),
     logged m [EvY X [a] (Arr1 [g]); EvBatchEval X]).
Proof.
  intros E P Na. destruct (P (world m) X) as (row & Er & Lr).
  rewrite <- Lr in Na.
  unfold Y, call_batch_eval, bind, emit, get_self, get_world, ret, lift, logged.
  simpl. rewrite E. simpl. rewrite Er.
  unfold fancy_assign. simpl. unfold set_item. simpl.
  rewrite (normalize_index_invalid _ _ Na). simpl.
  rewrite <- app_assoc. reflexivity.
Qed.

(** X8. A terminal call replays everything the cache holds, not only the
    transitions of the current episode: on a supported approximator it
    returns after one update for each cached transition and for the new one,
    newest first, and leaves the cache empty. *)
Theorem terminal_call_replays_whole_cache
    {T : Type} `{Numeric T} `{ValueFunctionAPI T}
    (m : machine) (final : raw_transition) :
  let c := experience_cache (self m) in
  Forall (fun t => exists a r, t_A t = [a] /\ t_R t = [r]) c ->
  supported (value_function (self m)) (concat (map t_A c) ++ [raw_a final]) ->
  let m' := snd (update_raw final true m) in
  exists t tr,
    preprocess_in m final = Ok t /\
    fst (update_raw final true m) = Ok tt /\
    trace m' = trace m ++ tr /\
    map fst (update_calls tr) = map t_X (reverse (c ++ [t])) /\
    length (update_calls tr) = S (length c) /\
    experience_cache (self m') = [].
Proof.
  intros c Hu Hs. simpl.
  assert (Hr := supported_recognized _ _ Hs).
  destruct (preprocess_recognized (raw_s final) (raw_a final) (raw_r final)
              (raw_s_next final) m Hr) as (t & Et & Ea & Er).
  edestruct (replay_run (c ++ [t]) (S (length (c ++ [t])))
               (with_cache m (c ++ [t])) (Scalar zero) zero)
    as (tr & w & ER & HR).
  { reflexivity. }
  { apply Forall_app. split; [exact Hu|].
    constructor; [|constructor]. exists (raw_a final), (raw_r final). auto. }
  { simpl. rewrite map_app, concat_app. simpl. rewrite Ea. simpl. exact Hs. }
  { now left. }
  { lia. }
  exists t, tr. unfold update_raw.
  rewrite (update_after_preprocess _ _ _ _ _ _ _ Et). fold c. rewrite ER. simpl.
  split; [unfold preprocess_in; now rewrite Et|].
  split; [reflexivity|]. split; [reflexivity|].
  destruct (replayed_update_calls _ _ _ _ _ HR) as [E1 _].
  split; [exact E1|]. split; [|reflexivity].
  rewrite (replayed_length_updates _ _ _ _ _ HR), length_reverse, length_app.
  simpl. lia.
Qed.

Lemma terminal_call_replays_whole_cache_witness :
  let m := snd (accumulate (scenario_steps 1%Q 2%Q)
                  (toy_machine ToyQ2 (1 # 2)%Q (0%Q, 0%Q))) in
  length (experience_cache (self m)) = 2%nat /\
  experience_cache (self (snd (update_raw (scenario_final 3%Q) true m))) = [].
Proof.
  intros m. split; [reflexivity|].
  destruct (@terminal_call_replays_whole_cache Q _ (toy_api Q) m (scenario_final 3%Q))
    as (t & tr & _ & _ & _ & _ & _ & E).
  - repeat constructor; eexists _, _; split; reflexivity.
  - exact (toy_Q2_supported [0; 1; 0] scenario_actions_valid).
  - exact E.
Defined.

(** X9. No call of [update], whatever it returns or raises, touches the
    older part of the cache: afterwards the cache is a prefix of the old
    cache followed by the transition of this call (of the old cache alone when
    preprocessing raised); in particular every cached transition stays a
    batch of one action and one reward. *)
Theorem update_cache_prefix
    {T : Type} `{Numeric T} `{ValueFunctionAPI T}
    (m : machine) (s : Obs) (a : Z) (r : T) (s_next : Obs) (done : bool) :
  let c := experience_cache (self m) in
  let c' := experience_cache (self (snd (update s a r s_next done m))) in
  c' `prefix_of` c ++ match fst (preprocess_transition s a r s_next m) with
                      | Ok t => [t]
                      | Raise _ => []
                      end /\
  (Forall (fun t => exists a r, t_A t = [a] /\ t_R t = [r]) c ->
   Forall (fun t => exists a r, t_A t = [a] /\ t_R t = [r]) c').
Proof.
  simpl.
  assert (F := preprocess_frame s a r s_next m).
  assert (P : experience_cache (self (snd (update s a r s_next done m)))
              `prefix_of` experience_cache (self m)
                ++ match fst (preprocess_transition s a r s_next m) with
                   | Ok t => [t]
                   | Raise _ => []
                   end /\
              forall t, fst (preprocess_transition s a r s_next m) = Ok t ->
                        t_A t = [a] /\ t_R t = [r]).
  { destruct (preprocess_transition s a r s_next m) as [[t|e] m1] eqn:E;
      simpl in F; subst m1; simpl.
    - split.
      + rewrite (update_after_preprocess _ _ _ _ _ _ _ E).
        destruct done; [|reflexivity].
        apply (replay_cache_prefix _ _ (with_cache m (experience_cache (self m) ++ [t]))).
      + intros t' Et'. injection Et' as <-.
        assert (R : recognized (value_function (self m))).
        { destruct (Z.eq_dec (MODELTYPE (value_function (self m))) 1); [now left|].
          destruct (Z.eq_dec (MODELTYPE (value_function (self m))) 2); [now right|].
          rewrite preprocess_unrecognized in E; [discriminate E|].
          intros [R|R]; contradiction. }
        destruct (preprocess_recognized s a r s_next m R) as (t' & E' & Ea & Er).
        rewrite E in E'. injection E' as <-. auto.
    - split; [|discriminate].
      rewrite (update_preprocess_raises_aux s a r s_next done m e).
      + rewrite app_nil_r. reflexivity.
      + now rewrite E. }
  destruct P as [P1 P2]. split; [exact P1|].
  intros Hc. destruct P1 as [l El].
  assert (Hall : Forall (fun t => exists a r, t_A t = [a] /\ t_R t = [r])
                   (experience_cache (self (snd (update s a r s_next done m))) ++ l)).
  { rewrite <- El. apply Forall_app. split; [exact Hc|].
    destruct (fst (preprocess_transition s a r s_next m)) as [t|e]; [|constructor].
    constructor; [|constructor]. destruct (P2 t eq_refl). eauto. }
  apply Forall_app in Hall. tauto.
Qed.



(** ** More about whole episodes *)

Section EpisodesMore.
Context {T : Type} `{Numeric T} `{ValueFunctionAPI T}.

Lemma lookup_map {A B} (f : A -> B) (l : list A) :
  forall i, map f l !! i = option_map f (l !! i).
Proof. induction l as [|x l IH]; intros [|i]; simpl; auto. Qed.

Lemma returns_scan_first (gam g0 : T) (rs : list T) (r : T) :
  rs !! 0%nat = Some r ->
  returns_scan gam g0 rs !! 0%nat = Some (add r (mul gam g0)).
Proof. destruct rs as [|r' rs]; [discriminate|]. simpl. now intros [= ->]. Qed.

Lemma returns_scan_step (gam : T) (rs : list T) :
  forall (g0 : T) (k : nat) (g r : T),
    returns_scan gam g0 rs !! k = Some g ->
    rs !! S k = Some r ->
    returns_scan gam g0 rs !! S k = Some (add r (mul gam g)).
Proof.
  induction rs as [|r0 rs IH]; intros g0 k g r Hk Hr; [discriminate Hk|].
  destruct k as [|k].
  - simpl in Hk. injection Hk as <-. simpl in Hr. simpl.
    now apply returns_scan_first.
  - simpl in Hk, Hr. simpl. now apply IH.
Qed.

(** The outcome of an episode that starts with an empty cache. *)
Lemma episode_outcome (steps : list raw_transition) (final : raw_transition)
    (m : machine) :
  experience_cache (self m) = [] ->
  supported (value_function (self m)) (map raw_a (steps ++ [final])) ->
  exists ts tr w,
    Forall2 (fun st t => preprocess_in m st = Ok t /\
                         t_A t = [raw_a st] /\ t_R t = [raw_r st])
            (steps ++ [final]) ts /\
    snd (accumulate steps m) = with_cache m (take (length steps) ts) /\
    update_raw final true (snd (accumulate steps m))
    = (Ok tt, {| self := self (with_cache m []); world := w; trace := trace m ++ tr |}) /\
    episode steps final m
    = (Ok tt, {| self := self (with_cache m []); world := w; trace := trace m ++ tr |}) /\
    replayed (value_function (self m)) (gamma (self m)) zero (reverse ts) tr /\
    map reward ts = map raw_r (steps ++ [final]).
Proof.
  intros Ec Hs.
  destruct (episode_run steps final m Ec Hs) as (ts & tr & w & Hts & Eacc & Eup & HR).
  exists ts, tr, w. rewrite Eacc. simpl.
  split; [exact Hts|]. split; [reflexivity|]. split; [exact Eup|].
  split; [unfold episode; now rewrite (bind_ok _ _ _ _ _ Eacc)|].
  split; [exact HR|].
  clear -Hts. induction Hts as [|st t' l k (_ & _ & E) _ IH]; [reflexivity|].
  simpl. rewrite IH. unfold reward at 1. now rewrite E.
Qed.

End EpisodesMore.

(** X11. In binary64 as in any other arithmetic, the returns of a replay
    obey the recurrence of line 68 exactly: the first [Y] call gets
    [r_n + gam * 0], and the call after one that got [g] gets
    [r + gam * g] for the reward [r] of the step before. *)
Theorem returns_follow_recurrence
    {T : Type} `{Numeric T} `{ValueFunctionAPI T}
    (m : machine) (steps : list raw_transition) (final : raw_transition) :
  experience_cache (self m) = [] ->
  supported (value_function (self m)) (map raw_a (steps ++ [final])) ->
  let m1 := snd (accumulate steps m) in
  let m2 := snd (update_raw final true m1) in
  exists tr,
    trace m2 = trace m1 ++ tr /\
    (exists X A,
       y_calls tr !! 0%nat
       = Some (X, A, Arr1 [add (raw_r final) (mul (gamma (self m)) zero)])) /\
    forall (k : nat) (st : raw_transition) X A (g : T),
      (S k <= length steps)%nat ->
      steps !! (length steps - S k)%nat = Some st ->
      y_calls tr !! k = Some (X, A, Arr1 [g]) ->
      exists X' A',
        y_calls tr !! S k
        = Some (X', A', Arr1 [add (raw_r st) (mul (gamma (self m)) g)]).
Proof.
  intros Ec Hs.
  destruct (episode_outcome steps final m Ec Hs)
    as (ts & tr & w & Hts & Eacc & Eup & _ & HR & Erew).
  simpl. rewrite Eup, Eacc. simpl. exists tr. split; [reflexivity|].
  assert (Lts : length ts = S (length steps)).
  { rewrite <- (Forall2_length _ _ _ Hts), length_app. simpl. lia. }
  assert (Erev : map reward (reverse ts) = reverse (map raw_r (steps ++ [final]))).
  { now rewrite map_reverse, Erew. }
  split.
  - destruct (lookup_lt_is_Some_2 (reverse ts) 0) as [t Ht];
      [rewrite length_reverse; lia|].
    destruct (replayed_lookup _ _ _ _ _ HR _ _ Ht) as (a & g & Yv & _ & Hg & Hy & _).
    exists (t_X t), [a]. rewrite Hy. do 3 f_equal.
    rewrite Erev, map_app, reverse_app in Hg. simpl in Hg. congruence.
  - intros k st X A g Hk Hst Hy.
    destruct (lookup_lt_is_Some_2 (reverse ts) k) as [t Ht];
      [rewrite length_reverse; lia|].
    destruct (lookup_lt_is_Some_2 (reverse ts) (S k)) as [t' Ht'];
      [rewrite length_reverse; lia|].
    destruct (replayed_lookup _ _ _ _ _ HR _ _ Ht) as (a0 & g0 & Yv0 & _ & Hg0 & Hy0 & _).
    destruct (replayed_lookup _ _ _ _ _ HR _ _ Ht') as (a1 & g1 & Yv1 & _ & Hg1 & Hy1 & _).
    rewrite Hy in Hy0. injection Hy0 as -> -> ->.
    exists (t_X t'), [a1]. rewrite Hy1. do 3 f_equal.
    assert (Hr : map reward (reverse ts) !! S k = Some (raw_r st)).
    { rewrite Erev, reverse_lookup by (rewrite length_map, length_app; simpl; lia).
      rewrite lookup_map, length_map, length_app. simpl.
      replace (length steps + 1 - S (S k))%nat with (length steps - S k)%nat by lia.
      rewrite lookup_app_l by lia. now rewrite Hst. }
    rewrite (returns_scan_step _ _ _ _ _ _ Hg0 Hr) in Hg1. congruence.
Qed.

Lemma returns_follow_recurrence_witness :
  let m := toy_machine ToyQ1 0.5%float (0%float, 0%float) in
  let m2 := snd (@update_raw float float_numeric (toy_api float)
                   (scenario_final 3%float) true
                   (snd (@accumulate float float_numeric (toy_api float)
                           (scenario_steps 1%float 2%float) m))) in
  exists X A, @y_calls float (toy_api float) (trace m2) !! 1%nat
              = Some (X, A, Arr1 [3.5%float]).
Proof.
  intros m m2.
  destruct (@returns_follow_recurrence float float_numeric (toy_api float) m
              (scenario_steps 1%float 2%float) (scenario_final 3%float) eq_refl
              (or_introl eq_refl)) as (tr & Etr & _ & K).
  assert (Et : tr = trace m2) by (symmetry; exact Etr). subst tr.
  destruct (K 0%nat (toy_step 1 1 2%float 2) [2; 0] [0] 3%float) as (X' & A' & E).
  - simpl. lia.
  - reflexivity.
  - reflexivity.
  - exists X', A'. exact E.
Defined.

(** X12. The returns of an episode depend on its rewards and on the discount
    factor only: two algorithms with the same discount factor, on any two
    supported approximators in any state, pass the same returns to [Y] for
    episodes with the same rewards, whatever the states and actions are. *)
Theorem returns_depend_on_rewards_only
    {T : Type} `{Numeric T} (api1 api2 : ValueFunctionAPI T)
    (m1 : @machine T api1) (steps1 : list (@raw_transition T api1))
    (final1 : @raw_transition T api1)
    (m2 : @machine T api2) (steps2 : list (@raw_transition T api2))
    (final2 : @raw_transition T api2) :
  experience_cache (self m1) = [] ->
  experience_cache (self m2) = [] ->
  supported (value_function (self m1)) (map raw_a (steps1 ++ [final1])) ->
  supported (value_function (self m2)) (map raw_a (steps2 ++ [final2])) ->
  gamma (self m1) = gamma (self m2) ->
  map raw_r (steps1 ++ [final1]) = map raw_r (steps2 ++ [final2]) ->
  exists tr1 tr2,
    trace (snd (episode steps1 final1 m1)) = trace m1 ++ tr1 /\
    trace (snd (episode steps2 final2 m2)) = trace m2 ++ tr2 /\
    map snd (y_calls tr1) = map snd (y_calls tr2).
Proof.
  intros Ec1 Ec2 Hs1 Hs2 Eg Er.
  destruct (episode_outcome steps1 final1 m1 Ec1 Hs1)
    as (ts1 & tr1 & w1 & _ & _ & _ & Ee1 & HR1 & Erew1).
  destruct (episode_outcome steps2 final2 m2 Ec2 Hs2)
    as (ts2 & tr2 & w2 & _ & _ & _ & Ee2 & HR2 & Erew2).
  exists tr1, tr2. rewrite Ee1, Ee2. simpl.
  split; [reflexivity|]. split; [reflexivity|].
  rewrite (replayed_returns _ _ _ _ _ HR1), (replayed_returns _ _ _ _ _ HR2).
  rewrite !map_reverse, Erew1, Erew2, Eg, Er. reflexivity.
Qed.

Lemma returns_depend_on_rewards_only_witness :
  map snd (y_calls (trace (snd (episode [toy_step 0 0 1%Q 1] (toy_step 1 1 2%Q 2)
                                  (toy_machine ToyQ1 (1 # 2)%Q (0%Q, 0%Q))))))
  = map snd (y_calls (trace (snd (episode [toy_step 5 1 1%Q 6] (toy_step 6 0 2%Q 7)
                                    (toy_machine ToyQ2 (1 # 2)%Q (8%Q, 9%Q)))))).
Proof.
  destruct (@returns_depend_on_rewards_only Q _ (toy_api Q) (toy_api Q)
              (toy_machine ToyQ1 (1 # 2)%Q (0%Q, 0%Q))
              [toy_step 0 0 1%Q 1] (toy_step 1 1 2%Q 2)
              (toy_machine ToyQ2 (1 # 2)%Q (8%Q, 9%Q))
              [toy_step 5 1 1%Q 6] (toy_step 6 0 2%Q 7)
              eq_refl eq_refl (or_introl eq_refl))
    as (tr1 & tr2 & E1 & E2 & E).
  - apply (toy_Q2_supported [1; 0]). repeat constructor; unfold valid_index; lia.
  - reflexivity.
  - reflexivity.
  - rewrite E1, E2. exact E.
Defined.

(** X13. During an episode on a type-I approximator [batch_eval] is never
    called; on a type-II approximator the terminal call calls it exactly once
    for each update, on the same features and in the same order. *)
Theorem batch_eval_once_per_type_II_update
    {T : Type} `{Numeric T} `{ValueFunctionAPI T}
    (m : machine) (steps : list raw_transition) (final : raw_transition) :
  experience_cache (self m) = [] ->
  supported (value_function (self m)) (map raw_a (steps ++ [final])) ->
  exists tr,
    trace (snd (episode steps final m)) = trace m ++ tr /\
    batch_eval_calls tr
    = if MODELTYPE (value_function (self m)) =? 2
      then map fst (update_calls tr) else [].
Proof.
  intros Ec Hs.
  destruct (episode_outcome steps final m Ec Hs)
    as (ts & tr & w & _ & _ & _ & Ee & HR & _).
  exists tr. rewrite Ee. simpl. split; [reflexivity|].
  rewrite (replayed_batch_eval _ _ _ _ _ HR).
  destruct (replayed_update_calls _ _ _ _ _ HR) as [E _]. now rewrite E.
Qed.

Lemma batch_eval_once_per_type_II_update_witness :
  batch_eval_calls (trace (snd (episode (scenario_steps 1%Q 2%Q) (scenario_final 3%Q)
                                  (toy_machine ToyQ2 (1 # 2)%Q (0%Q, 0%Q)))))
  = [[2]; [1]; [0]].
Proof.
  destruct (@batch_eval_once_per_type_II_update Q _ (toy_api Q)
              (toy_machine ToyQ2 (1 # 2)%Q (0%Q, 0%Q))
              (scenario_steps 1%Q 2%Q) (scenario_final 3%Q) eq_refl
              (toy_Q2_supported _ scenario_actions_valid)) as (tr & E1 & E2).
  rewrite E1. simpl app. rewrite E2.
  assert (Et : tr = trace (snd (episode (scenario_steps 1%Q 2%Q) (scenario_final 3%Q)
                                  (toy_machine ToyQ2 (1 # 2)%Q (0%Q, 0%Q)))))
    by (symmetry; exact E1).
  rewrite Et. reflexivity.
Defined.

(** X14. Episodes compose: after an episode that started with an empty
    cache a second one runs like the first, with one update for each of its
    own transitions, and the returns it passes to [Y] are those it would
    pass if it were run alone (the return starts again from 0 and nothing of
    the first episode is left in the cache). *)
Theorem episodes_compose
    {T : Type} `{Numeric T} `{ValueFunctionAPI T}
    (m : machine) (steps1 : list raw_transition) (final1 : raw_transition)
    (steps2 : list raw_transition) (final2 : raw_transition) :
  experience_cache (self m) = [] ->
  supported (value_function (self m)) (map raw_a (steps1 ++ [final1])) ->
  supported (value_function (self m)) (map raw_a (steps2 ++ [final2])) ->
  let m' := snd (episode steps1 final1 m) in
  let m'' := snd (episode steps2 final2 m') in
  fst (episode steps1 final1 m) = Ok tt /\
  fst (episode steps2 final2 m') = Ok tt /\
  experience_cache (self m'') = [] /\
  exists tr1 tr2 alone,
    trace m'' = trace m ++ tr1 ++ tr2 /\
    length (update_calls tr1) = S (length steps1) /\
    length (update_calls tr2) = S (length steps2) /\
    trace (snd (episode steps2 final2 m)) = trace m ++ alone /\
    map snd (y_calls tr2) = map snd (y_calls alone).
Proof.
  intros Ec Hs1 Hs2.
  destruct (episode_outcome steps1 final1 m Ec Hs1)
    as (ts1 & tr1 & w1 & Hts1 & _ & _ & Ee1 & HR1 & _).
  cbv zeta. rewrite Ee1. simpl fst. simpl snd.
  set (m' := {| self := {| gamma := gamma (self m);
                           policy := policy (self m);
                           value_function := value_function (self m);
                           experience_cache := [] |};
                world := w1; trace := trace m ++ tr1 |}).
  destruct (episode_outcome steps2 final2 m' eq_refl Hs2)
    as (ts2 & tr2 & w2 & Hts2 & _ & _ & Ee2 & HR2 & Erew2).
  destruct (episode_outcome steps2 final2 m Ec Hs2)
    as (ts3 & tr3 & w3 & Hts3 & _ & _ & Ee3 & HR3 & Erew3).
  rewrite Ee2, Ee3. simpl.
  split; [reflexivity|]. split; [reflexivity|]. split; [reflexivity|].
  exists tr1, tr2, tr3.
  split; [now rewrite app_assoc|].
  split.
  { rewrite (replayed_length_updates _ _ _ _ _ HR1), length_reverse,
      <- (Forall2_length _ _ _ Hts1), length_app. simpl. lia. }
  split.
  { rewrite (replayed_length_updates _ _ _ _ _ HR2), length_reverse,
      <- (Forall2_length _ _ _ Hts2), length_app. simpl. lia. }
  split; [reflexivity|].
  rewrite (replayed_returns _ _ _ _ _ HR2), (replayed_returns _ _ _ _ _ HR3).
  rewrite !map_reverse, Erew2, Erew3. reflexivity.
Qed.

Lemma episodes_compose_witness :
  let m := toy_machine ToyQ2 (1 # 2)%Q (0%Q, 0%Q) in
  let m' := snd (episode (scenario_steps 1%Q 2%Q) (scenario_final 3%Q) m) in
  let m'' := snd (episode [toy_step 4 1 5%Q 5] (toy_step 5 0 6%Q 6) m') in
  experience_cache (self m'') = [] /\ length (update_calls (trace m'')) = 5%nat.
Proof.
  intros m m' m''.
  destruct (@episodes_compose Q _ (toy_api Q) m
              (scenario_steps 1%Q 2%Q) (scenario_final 3%Q)
              [toy_step 4 1 5%Q 5] (toy_step 5 0 6%Q 6) eq_refl
              (toy_Q2_supported _ scenario_actions_valid))
    as (_ & _ & Ec & tr1 & tr2 & alone & Et & L1 & L2 & _).
  - apply (toy_Q2_supported [1; 0]). repeat constructor; unfold valid_index; lia.
  - split; [exact Ec|].
    fold m' m'' in Et. rewrite Et. simpl app.
    unfold update_calls in *. rewrite omap_app, length_app, L1, L2. reflexivity.
Defined.

(** X15. Whenever a terminal call returns, on any approximator and whatever
    the cache held before, the cache is empty afterwards. *)
Theorem terminal_call_returns_with_empty_cache
    {T : Type} `{Numeric T} `{ValueFunctionAPI T}
    (m : machine) (s : Obs) (a : Z) (r : T) (s_next : Obs) :
  fst (update s a r s_next true m) = Ok tt ->
  experience_cache (self (snd (update s a r s_next true m))) = [].
Proof.
  assert (F := preprocess_frame s a r s_next m).
  destruct (preprocess_transition s a r s_next m) as [[t|e] m1] eqn:E;
    simpl in F; subst m1.
  - rewrite (update_after_preprocess _ _ _ _ _ _ _ E).
    apply replay_terminates. simpl. lia.
  - unfold update, bind at 1. rewrite E. discriminate.
Qed.

Lemma terminal_call_returns_with_empty_cache_witness :
  experience_cache (self (snd (@update Q _ (toy_api Q) 0 1 3%Q 1 true
     (snd (accumulate (scenario_steps 1%Q 2%Q)
             (toy_machine ToyQ1 (1 # 2)%Q (0%Q, 0%Q))))))) = [].
Proof.
  apply (@terminal_call_returns_with_empty_cache Q _ (toy_api Q)).
  reflexivity.
Defined.

(** ** More about the discounted return, in exact arithmetic *)

Lemma returns_scan_gamma_zero (gam : Q) (rs : list Q) :
  (gam == 0)%Q ->
  forall (g0 : Q) (k : nat) (g r : Q),
    returns_scan gam g0 rs !! k = Some g -> rs !! k = Some r -> (g == r)%Q.
Proof.
  intros Hg. induction rs as [|r0 rs IH]; intros g0 k g r Hk Hr; [discriminate Hk|].
  destruct k as [|k].
  - simpl in Hk, Hr. injection Hk as <-. injection Hr as <-.
    simpl. rewrite Hg. ring.
  - simpl in Hk, Hr. eapply IH; eassumption.
Qed.

Lemma returns_scan_gamma_one (gam : Q) (rs : list Q) :
  (gam == 1)%Q ->
  forall (g0 : Q) (k : nat) (g : Q),
    returns_scan gam g0 rs !! k = Some g ->
    (g == g0 + fold_right Qplus 0 (take (S k) rs))%Q.
Proof.
  intros Hg. induction rs as [|r0 rs IH]; intros g0 k g Hk; [discriminate Hk|].
  destruct k as [|k].
  - simpl in Hk. injection Hk as <-. simpl. rewrite Hg. ring.
  - simpl in Hk. apply IH in Hk. rewrite Hk.
    change (take (S (S k)) (r0 :: rs)) with (r0 :: take (S k) rs).
    simpl. rewrite Hg. ring.
Qed.

Lemma Qsum_reverse (l : list Q) :
  (fold_right Qplus 0 (reverse l) == fold_right Qplus 0 l)%Q.
Proof.
  induction l as [|x l IH]; [reflexivity|].
  rewrite reverse_cons, fold_right_app. simpl.
  assert (K : forall (l' : list Q) (y : Q),
             (fold_right Qplus y l' == fold_right Qplus 0 l' + y)%Q).
  { induction l' as [|z l' IH']; intros y; simpl; [ring|]. rewrite IH'. ring. }
  rewrite K, IH. ring.
Qed.

Lemma returns_scan_bounded (gam B : Q) (rs : list Q) :
  (0 <= gam <= 1)%Q ->
  Forall (fun r => (- B <= r <= B)%Q) rs ->
  forall (g0 : Q) (k : nat) (g : Q),
    (- B <= (1 - gam) * g0 <= B)%Q ->
    returns_scan gam g0 rs !! k = Some g ->
    (- B <= (1 - gam) * g <= B)%Q.
Proof.
  intros Hg Hrs. induction Hrs as [|r0 rs Hr0 _ IH]; intros g0 k g H0 Hk;
    [discriminate Hk|].
  assert (H1 : (- B <= (1 - gam) * (r0 + gam * g0) <= B)%Q) by nra.
  destruct k as [|k].
  - simpl in Hk. injection Hk as <-. exact H1.
  - simpl in Hk. eapply IH; [exact H1|exact Hk].
Qed.

Lemma episode_returns_scan {T : Type} `{Numeric T} `{ValueFunctionAPI T}
    (m : machine) (steps : list raw_transition) (final : raw_transition) :
  experience_cache (self m) = [] ->
  supported (value_function (self m)) (map raw_a (steps ++ [final])) ->
  exists tr,
    trace (snd (episode steps final m)) = trace m ++ tr /\
    map snd (y_calls tr)
    = map (fun g => Arr1 [g])
          (returns_scan (gamma (self m)) zero
             (reverse (map raw_r (steps ++ [final])))).
Proof.
  intros Ec Hs.
  destruct (episode_outcome steps final m Ec Hs)
    as (ts & tr & w & _ & _ & _ & Ee & HR & Erew).
  exists tr. rewrite Ee. simpl. split; [reflexivity|].
  now rewrite (replayed_returns _ _ _ _ _ HR), map_reverse, Erew.
Qed.

(** X16. At the two ends of the documented range of the discount factor,
    in exact arithmetic: with [gam = 0] the return passed to [Y] for a step
    is the reward of that step alone, with [gam = 1] it is the plain sum of
    the rewards from that step to the end of the episode. *)
Theorem returns_at_the_ends_of_the_gamma_range
    `{ValueFunctionAPI Q}
    (m : machine) (steps : list raw_transition) (final : raw_transition) :
  experience_cache (self m) = [] ->
  supported (value_function (self m)) (map raw_a (steps ++ [final])) ->
  let rs := map raw_r (steps ++ [final]) in
  let n := length rs in
  exists tr,
    trace (snd (episode steps final m)) = trace m ++ tr /\
    forall i : nat, (1 <= i <= n)%nat ->
      exists g r,
        map snd (y_calls tr) !! (n - i)%nat = Some (Arr1 [g]) /\
        rs !! (i - 1)%nat = Some r /\
        ((gamma (self m) == 0)%Q -> (g == r)%Q) /\
        ((gamma (self m) == 1)%Q ->
         (g == fold_right Qplus 0 (drop (i - 1) rs))%Q).
Proof.
  intros Ec Hs rs n.
  destruct (episode_returns_scan m steps final Ec Hs) as (tr & Et & Ey).
  exists tr. split; [exact Et|]. intros i Hi. fold rs in Ey.
  destruct (lookup_lt_is_Some_2
              (returns_scan (gamma (self m)) zero (reverse rs)) (n - i)) as [g Hg].
  { rewrite length_returns_scan, length_reverse. fold n. lia. }
  destruct (lookup_lt_is_Some_2 rs (i - 1)) as [r Hr]; [fold n; lia|].
  assert (Hrev : reverse rs !! (n - i)%nat = Some r).
  { rewrite reverse_lookup by (fold n; lia). fold n. rewrite <- Hr. f_equal. lia. }
  exists g, r. split; [|split; [exact Hr|split]].
  - rewrite Ey, lookup_map, Hg. reflexivity.
  - intros Hz. exact (returns_scan_gamma_zero _ _ Hz _ _ _ _ Hg Hrev).
  - intros Ho. rewrite (returns_scan_gamma_one _ _ Ho _ _ _ Hg).
    rewrite take_reverse, Qsum_reverse. fold n.
    replace (n - S (n - i))%nat with (i - 1)%nat by lia.
    simpl. ring.
Qed.

Lemma returns_at_the_ends_of_the_gamma_range_witness :
  exists g,
    map snd (y_calls (trace (snd (episode (scenario_steps 1%Q 2%Q) (scenario_final 3%Q)
                                    (toy_machine ToyQ1 1%Q (0%Q, 0%Q))))))
      !! 2%nat = Some (Arr1 [g]) /\
    (g == 6)%Q.
Proof.
  destruct (@returns_at_the_ends_of_the_gamma_range (toy_api Q)
              (toy_machine ToyQ1 1%Q (0%Q, 0%Q))
              (scenario_steps 1%Q 2%Q) (scenario_final 3%Q) eq_refl
              (or_introl eq_refl)) as (tr & Et & K).
  destruct (K 1%nat) as (g & r & Hg & _ & _ & Hone); [simpl; lia|].
  exists g. rewrite Et. split; [exact Hg|].
  rewrite Hone; reflexivity.
Defined.

(** X17. For a discount factor in [0, 1] and rewards between [-B] and [B],
    every return [g] passed to [Y] satisfies [-B <= (1 - gam) * g <= B] in
    exact arithmetic: for [gam < 1] the targets stay within [B / (1 - gam)]
    however long the episode is. *)
Theorem returns_are_bounded
    `{ValueFunctionAPI Q}
    (m : machine) (steps : list raw_transition) (final : raw_transition) (B : Q) :
  experience_cache (self m) = [] ->
  supported (value_function (self m)) (map raw_a (steps ++ [final])) ->
  (0 <= gamma (self m) <= 1)%Q ->
  Forall (fun st => (- B <= raw_r st <= B)%Q) (steps ++ [final]) ->
  exists tr,
    trace (snd (episode steps final m)) = trace m ++ tr /\
    length (y_calls tr) = S (length steps) /\
    forall (k : nat) (g : Q),
      map snd (y_calls tr) !! k = Some (Arr1 [g]) ->
      (- B <= (1 - gamma (self m)) * g <= B)%Q.
Proof.
  intros Ec Hs Hg HB.
  destruct (episode_returns_scan m steps final Ec Hs) as (tr & Et & Ey).
  exists tr. split; [exact Et|]. split.
  { rewrite <- (length_map snd), Ey, length_map, length_returns_scan,
      length_reverse, length_map, length_app. simpl. lia. }
  intros k g Hk. rewrite Ey, lookup_map in Hk.
  destruct (returns_scan (gamma (self m)) zero
              (reverse (map raw_r (steps ++ [final]))) !! k) as [g'|] eqn:Hs';
    [|discriminate Hk].
  simpl in Hk. injection Hk as ->.
  assert (B0 : (0 <= B)%Q).
  { apply Forall_app in HB as [_ HF]. apply Forall_cons_1 in HF as [HF _]. lra. }
  eapply (returns_scan_bounded _ B _ Hg); [| |exact Hs'].
  - apply Forall_reverse. clear -HB.
    induction HB as [|st l Hst _ IH]; simpl; constructor; assumption.
  - change (@zero Q Q_numeric) with 0%Q. lra.
Qed.

Lemma returns_are_bounded_witness :
  exists g,
    map snd (y_calls (trace (snd (episode (scenario_steps 1%Q 2%Q) (scenario_final 3%Q)
                                    (toy_machine ToyQ1 (1 # 2)%Q (0%Q, 0%Q))))))
      !! 2%nat = Some (Arr1 [g]) /\
    (g <= 6)%Q.
Proof.
  destruct (@returns_are_bounded (toy_api Q)
              (toy_machine ToyQ1 (1 # 2)%Q (0%Q, 0%Q))
              (scenario_steps 1%Q 2%Q) (scenario_final 3%Q) 3%Q eq_refl
              (or_introl eq_refl)) as (tr & Et & _ & K).
  - simpl. lra.
  - repeat constructor; simpl; lra.
  - exists (22 # 8)%Q. split; [vm_compute; reflexivity|].
    assert (Hg : map snd (y_calls tr) !! 2%nat = Some (Arr1 [(22 # 8)%Q])).
    { assert (E : tr = trace (snd (episode (scenario_steps 1%Q 2%Q) (scenario_final 3%Q)
                                     (toy_machine ToyQ1 (1 # 2)%Q (0%Q, 0%Q)))))
        by (symmetry; exact Et).
      rewrite E. vm_compute. reflexivity. }
    apply K in Hg. simpl in Hg. lra.
Defined.
